(** * workflow-dispatcher: the interactive selectors and the dispatch loop

    A shallow embedding of [src/index.js] (the revision whose multi-select
    is the filter / pick loop with the [:done] and [:reset] commands) and
    the properties of its selection state, its fuzzy-finder back end and its
    dispatch loop.

    Strings are byte strings that hold the UTF-8 form of the JavaScript
    text: equality, concatenation, [split] on a fixed separator and
    [includes] commute with that encoding.  The two primitives that depend
    on Unicode tables, [toLowerCase] and [trim], are an interface
    ([StringPrims]); the properties of the selection loop hold for every
    implementation of it, and the worked examples run with the ASCII one.
    A JavaScript number that holds an index is a [Z]; [NaN] and [undefined]
    are [None].  A [Set] is the list of its members in insertion order.
    The operator, the external commands and the prompt library are oracles
    of a [World]; the program is a function from a world to the trace of
    what it shows and runs and to the way it ends. *)

From Stdlib Require Import List String Ascii ZArith Bool Lia Sorted.
From Stdlib Require Import Numbers.DecimalString Numbers.DecimalN.
Import ListNotations.
Open Scope string_scope.
Open Scope list_scope.
Open Scope Z_scope.

(** ** JavaScript string primitives *)

Class StringPrims := {
  toLowerCase : string -> string;
  trim : string -> string
}.

Module Js.

(** [s.includes(q)] *)
Fixpoint includes (s q : string) : bool :=
  if String.prefix q s then true
  else match s with
       | EmptyString => false
       | String _ s' => includes s' q
       end.

(** ASCII part of WhiteSpace and LineTerminator: TAB, LF, VT, FF, CR, SP. *)
Definition isSpace (c : ascii) : bool :=
  let n := nat_of_ascii c in
  ((9 <=? n)%nat && (n <=? 13)%nat) || (n =? 32)%nat.

Fixpoint trimStart (s : string) : string :=
  match s with
  | EmptyString => EmptyString
  | String c s' => if isSpace c then trimStart s' else s
  end.

Fixpoint trimEnd (s : string) : string :=
  match s with
  | EmptyString => EmptyString
  | String c s' =>
      let t := trimEnd s' in
      if isSpace c && (t =? "")%string then EmptyString else String c t
  end.

Definition trim_ascii (s : string) : string := trimEnd (trimStart s).

Definition lower_char (c : ascii) : ascii :=
  let n := nat_of_ascii c in
  if ((65 <=? n)%nat && (n <=? 90)%nat)%bool then ascii_of_nat (n + 32) else c.

Fixpoint lower_ascii (s : string) : string :=
  match s with
  | EmptyString => EmptyString
  | String c s' => String (lower_char c) (lower_ascii s')
  end.

(** [s.split(sep)] for a non-empty separator: [cur] is the piece being
    read, [skip] the number of bytes of a matched separator still to pass. *)
Fixpoint split_go (sep cur s : string) (skip : nat) : list string :=
  match s with
  | EmptyString => [cur]
  | String c s' =>
      match skip with
      | S k => split_go sep cur s' k
      | O =>
          if String.prefix sep s
          then cur :: split_go sep "" s' (String.length sep - 1)
          else split_go sep (cur ++ String c "")%string s' 0
      end
  end.

Definition split (s sep : string) : list string := split_go sep "" s 0.

(** [arr.join(sep)] *)
Fixpoint join (sep : string) (arr : list string) : string :=
  match arr with
  | [] => ""
  | [x] => x
  | x :: xs => (x ++ sep ++ join sep xs)%string
  end.

Definition digit (c : ascii) : option Z :=
  let n := Z.of_nat (nat_of_ascii c) in
  if (48 <=? n) && (n <=? 57) then Some (n - 48) else None.

Fixpoint digits (s : string) (acc : option Z) : option Z :=
  match s with
  | EmptyString => acc
  | String c s' =>
      match digit c with
      | Some d =>
          digits s' (Some (10 * match acc with Some a => a | None => 0 end + d))
      | None => acc
      end
  end.

(** [parseInt(s, 10)]: leading white space, an optional sign, then the
    longest run of decimal digits; [None] is [NaN].  The value is exact
    (a double rounds beyond 2^53, far above the length of any array). *)
Definition parseInt (s : string) : option Z :=
  match trimStart s with
  | String "-" t => option_map Z.opp (digits t None)
  | String "+" t => digits t None
  | t => digits t None
  end.

(** [arr.indexOf(v)]: the first position of [v], or -1. *)
Fixpoint indexOf_from (arr : list string) (v : string) (k : Z) : Z :=
  match arr with
  | [] => -1
  | x :: xs => if (x =? v)%string then k else indexOf_from xs v (k + 1)
  end.

Definition indexOf (arr : list string) (v : string) : Z := indexOf_from arr v 0.

(** [arr.includes(v)] *)
Definition arr_includes (arr : list string) (v : string) : bool :=
  existsb (fun x => (x =? v)%string) arr.

(** [arr[i]] for a number [i]; out of range is [undefined]. *)
Definition at_index {A : Type} (arr : list A) (i : Z) : option A :=
  if i <? 0 then None else nth_error arr (Z.to_nat i).

End Js.

#[export] Instance ascii_prims : StringPrims :=
  {| toLowerCase := Js.lower_ascii; trim := Js.trim_ascii |}.

(** ** A JavaScript [Set] of strings: members in insertion order *)

Module JSSet.

Definition t := list string.

Definition empty : t := [].

Definition has (s : t) (v : string) : bool :=
  existsb (fun x => (x =? v)%string) s.

Definition add (s : t) (v : string) : t :=
  if has s v then s else s ++ [v].

Definition delete (s : t) (v : string) : t :=
  filter (fun x => negb (x =? v)%string) s.

Definition clear (s : t) : t := [].

Definition size (s : t) : nat := List.length s.

(** [Array.from(set)] *)
Definition toArray (s : t) : list string := s.

End JSSet.

(** ** The session's environment

    Everything the program obtains from outside is an oracle of the
    [World]: the external commands, the fuzzy finder, the prompts of the
    enquirer library and the JSON parser.  What the program shows (the
    prompts with their message and choices, the console output) and the
    commands it runs are the [event]s of its trace. *)

Inductive prompt (A : Type) : Type :=
  | Answer (a : A)
  | Interrupt.
Arguments Answer {A} a.
Arguments Interrupt {A}.

(** One turn of the multi-select loop: what the operator types at the
    filter prompt and what is submitted at the pick prompt (consulted only
    when the turn reaches that prompt). *)
Record round := {
  typed : prompt string;
  picked : prompt (list string)
}.

Record workflow := {
  name : string;
  path : string;
  state : string
}.

(** A choice of a multi-select prompt: an object with its [name],
    [message], [value] and, when the source sets it, [selected]; or a
    separator. *)
Inductive choice : Type :=
  | Choice (name message value : string) (selected : option bool)
  | Separator.

Inductive event : Type :=
  | InputPrompt (message : string)
  | MultiSelectPrompt (message : string) (choices : list choice)
  | AutoCompletePrompt (message : string) (choices : list string)
  | ConfirmPrompt (message : string)
  | ConsoleLog (msg : string)
  | ConsoleError (msg : string)
  | LogSelectedRef (ref : option string)
  | LogWillDispatch (w : option string)
  | LogDispatching (path ref : option string)
  | GhWorkflowRun (path ref : option string)
  | LogFailed (msg : string).

(** [has cmd] and [run cmd args] are the two utilities of the source (a
    probe, and the captured output or the empty string).  [fzf args input]
    is what the fuzzy finder writes.  [JSON_parse raw] is [None] when
    [JSON.parse] throws; a parsed value is the array of workflow records
    that the CI tool prints.  [autoComplete], [rounds] and [confirmed] are
    the answers of the three enquirer prompts.  [execFileSync tr] answers
    the run-workflow invocation that ends the trace [tr]: [None] for exit
    status 0, [Some message] when it throws. *)
Record World := {
  has : string -> bool;
  run : string -> list string -> string;
  fzf : list string -> string -> string;
  JSON_parse : string -> option (list workflow);
  autoComplete : prompt string;
  rounds : list round;
  confirmed : prompt bool;
  execFileSync : list event -> option string
}.

Definition tab : string := String "009"%char "".
Definition nl : string := String "010"%char "".
Definition SEP : string := " — ".
Definition TOGGLE : string := "__TOGGLE__".

Definition decimal (n : Z) : string :=
  NilEmpty.string_of_uint (N.to_uint (Z.to_N n)).

(** [arr.map((x, idx) => f x idx)] *)
Fixpoint mapi_from {A B : Type} (f : A -> Z -> B) (arr : list A) (k : Z) : list B :=
  match arr with
  | [] => []
  | x :: xs => f x k :: mapi_from f xs (k + 1)
  end.

Definition mapi {A B : Type} (f : A -> Z -> B) (arr : list A) : list B :=
  mapi_from f arr 0.

(** [nums.filter(p)] where [p] is a conjunction of comparisons: false on NaN. *)
Fixpoint filter_num (p : Z -> bool) (nums : list (option Z)) : list Z :=
  match nums with
  | [] => []
  | Some i :: rest => if p i then i :: filter_num p rest else filter_num p rest
  | None :: rest => filter_num p rest
  end.

Definition len {A : Type} (arr : list A) : Z := Z.of_nat (List.length arr).

(** ** The fuzzy-finder selector *)

Section Selectors.
Context {P : StringPrims}.

(** The [close] handler of [selectWithFzf]: from the text the subprocess
    wrote to the indices resolved. *)
Definition fzfClose (items : list string) (out : string) : list Z :=
  if (trim out =? "")%string then []
  else
    filter_num (fun i => (0 <=? i) && (i <? len items))
      (map (fun line =>
              option_map (fun n => n - 1)
                (Js.parseInt (nth 0 (Js.split line tab) "")))
           (Js.split (trim out) nl)).

Definition selectWithFzf (w : World) (items : list string) (prompt_ : string)
    (multi : bool) : option (list Z) :=
  if negb (has w "fzf") then None
  else if len items =? 0 then Some []
  else
    let input :=
      Js.join nl (mapi (fun item idx => decimal (idx + 1) ++ tab ++ item)%string items) in
    let args :=
      ["--prompt"; (prompt_ ++ ": ")%string; "--layout=reverse"]
        ++ (if multi then ["--multi"] else []) in
    Some (fzfClose items (fzf w args input)).

(** ** The multi-select loop *)

Record entry := { it : string; idx : Z }.

(** [(it, idx) => ({ it, idx })] *)
Definition mk_entry (it_ : string) (idx_ : Z) : entry :=
  {| it := it_; idx := idx_ |}.

(** The visible (filtered) items, for the lower-cased query [q]. *)
Definition visibleOf (items : list string) (q : string) : list entry :=
  if (q =? "")%string
  then mapi mk_entry items
  else filter (fun e => Js.includes (toLowerCase (it e)) q)
         (mapi mk_entry items).

(** The choices of the pick prompt: the toggle, a separator, the visible
    items, each marked selected when it is in the selection state. *)
Definition choicesOf (visible : list entry) (selectedSet : JSSet.t) : list choice :=
  Choice TOGGLE ("Toggle visible (" ++ decimal (len visible) ++ ")")%string TOGGLE None
    :: Separator
    :: map (fun e => Choice (it e) (it e) (it e) (Some (JSSet.has selectedSet (it e))))
         visible.

(** The update of the selection state after a pick round. *)
Definition update (visible : list entry) (selectedSet : JSSet.t)
    (result : list string) : JSSet.t :=
  if Js.arr_includes result TOGGLE then
    let rest := filter (fun v => negb (v =? TOGGLE)%string) result in
    if len rest =? 0 then
      let allSelected := forallb (fun e => JSSet.has selectedSet (it e)) visible in
      if allSelected
      then fold_left (fun s e => JSSet.delete s (it e)) visible selectedSet
      else fold_left (fun s e => JSSet.add s (it e)) visible selectedSet
    else
      fold_left JSSet.add rest
        (fold_left (fun s e => JSSet.delete s (it e)) visible selectedSet)
  else
    fold_left JSSet.add result
      (fold_left (fun s e => JSSet.delete s (it e)) visible selectedSet).

(** Where the loop of [selectWithEnquirerMulti] stands: still asking, with
    its selection state, or returned. *)
Inductive status : Type :=
  | Looping (selectedSet : JSSet.t)
  | Resolved (idxs : list Z).

(** [summary()]: a short account of the current selection. *)
Definition summary (selectedSet : JSSet.t) : string :=
  if Z.of_nat (JSSet.size selectedSet) =? 0 then "(none)"
  else
    let sample := firstn 6 (JSSet.toArray selectedSet) in
    let more := if 6 <? Z.of_nat (JSSet.size selectedSet) then ", ..." else "" in
    (decimal (Z.of_nat (JSSet.size selectedSet)) ++ " selected — "
       ++ Js.join ", " sample ++ more)%string.

(** One pass through the body of the [while (true)] loop. *)
Definition iteration (items : list string) (message : string)
    (selectedSet : JSSet.t) (r : round) : status * list event :=
  let inPrompt :=
    InputPrompt
      (message
         ++ " — filter (empty = all). Commands: :done (finish), :reset (clear). Current: "
         ++ summary selectedSet)%string in
  match typed r with
  | Interrupt => (Resolved [], [inPrompt])
  | Answer raw =>
      let filter_ := trim raw in
      if (filter_ =? ":done")%string then
        (Resolved (filter_num (fun i => 0 <=? i)
                     (map (fun v => Some (Js.indexOf items v))
                        (JSSet.toArray selectedSet))), [inPrompt])
      else if (filter_ =? ":reset")%string then
        (Looping (JSSet.clear selectedSet), [inPrompt])
      else
        let q := toLowerCase filter_ in
        let visible := visibleOf items q in
        if len visible =? 0 then
          (Looping selectedSet,
           [inPrompt; ConsoleLog "No items match that filter — try again."])
        else
          let ms :=
            MultiSelectPrompt
              ("Filtered: " ++ decimal (len visible)
                 ++ " shown — use space to (un)select, enter to submit")%string
              (choicesOf visible selectedSet) in
          match picked r with
          | Interrupt => (Resolved [], [inPrompt; ms])
          | Answer result =>
              (Looping (update visible selectedSet result), [inPrompt; ms])
          end
  end.

Fixpoint loop (items : list string) (message : string) (selectedSet : JSSet.t)
    (rs : list round) : status * list event :=
  match rs with
  | [] => (Looping selectedSet, [])
  | r :: rs' =>
      match iteration items message selectedSet r with
      | (Looping s', out) =>
          let (st, out') := loop items message s' rs' in (st, out ++ out')
      | (Resolved idxs, out) => (Resolved idxs, out)
      end
  end.

Definition selectWithEnquirerMulti (items : list string) (message : string)
    (rs : list round) : status * list event :=
  loop items message JSSet.empty rs.

End Selectors.

(** ** The session: a trace of events and the way it ends *)

Inductive fin : Type :=
  | Returned            (* an early [return] of [runCLI] *)
  | Exited (code : Z)   (* [process.exit(code)] *)
  | Rejected            (* an exception nobody catches *)
  | Waiting.            (* the script of answers ran out at an open prompt *)

Definition M (A : Type) : Type := list event -> (A + fin) * list event.

Definition ret {A : Type} (a : A) : M A := fun tr => (inl a, tr).

Definition bind {A B : Type} (m : M A) (k : A -> M B) : M B :=
  fun tr =>
    match m tr with
    | (inl a, tr') => k a tr'
    | (inr f, tr') => (inr f, tr')
    end.

Definition emit (e : event) : M unit := fun tr => (inl tt, tr ++ [e]).

Definition stop {A : Type} (f : fin) : M A := fun tr => (inr f, tr).

Definition history : M (list event) := fun tr => (inl tr, tr).

Notation "x <- c1 ;; c2" := (bind c1 (fun x => c2))
  (at level 61, c1 at next level, right associativity).
Notation "c1 ;; c2" := (bind c1 (fun _ => c2))
  (at level 61, right associativity).

Fixpoint emit_all (es : list event) : M unit :=
  match es with
  | [] => ret tt
  | e :: es' => emit e ;; emit_all es'
  end.

Section Session.
Context {P : StringPrims}.

(** An interrupted prompt rejects; neither selector below nor [runCLI]
    catches it. *)
Definition selectWithEnquirerSingle (w : World) (items : list string)
    (message : string) : M Z :=
  emit (AutoCompletePrompt message items) ;;
  match autoComplete w with
  | Answer ans => ret (Js.indexOf items ans)
  | Interrupt => stop Rejected
  end.

Definition confirm (w : World) (msg : string) : M bool :=
  emit (ConfirmPrompt msg) ;;
  match confirmed w with
  | Answer ok => ret ok
  | Interrupt => stop Rejected
  end.

(** Step 5 of [runCLI], the [for (const w of chosen)] loop.  The oracle
    [execFileSync] sees the trace up to and with the invocation and says
    whether it throws ([Some message]) or exits with status 0.  An
    undefined element of [chosen] has no [split]: the exception is outside
    the [try] and ends the session. *)
Fixpoint dispatch (w : World) (selectedRef : option string)
    (chosen : list (option string)) : M unit :=
  match chosen with
  | [] => ret tt
  | None :: _ => stop Rejected
  | Some c :: rest =>
      let path := Js.at_index (Js.split c SEP) 1 in
      emit (LogDispatching path selectedRef) ;;
      emit (GhWorkflowRun path selectedRef) ;;
      tr <- history ;;
      match execFileSync w tr with
       | Some message => emit (LogFailed message)
       | None => ret tt
       end ;;
      dispatch w selectedRef rest
  end.

(** [runCLI] ([main] in the revision with the filter loop; the body is
    the same). *)
Definition runCLI (w : World) : M unit :=
  if negb (has w "git") then
    emit (ConsoleError "git not found") ;; stop (Exited 1)
  else if negb (has w "gh") then
    emit (ConsoleError "gh not found") ;; stop (Exited 1)
  else
    let refs :=
      filter (fun s => negb (s =? "")%string)
        (map trim
           (Js.split
              (run w "git" ["for-each-ref"; "--format=%(refname:short)";
                            "refs/heads"; "refs/tags"]) nl)) in
    if len refs =? 0 then emit (ConsoleLog "No refs found.") ;; stop Returned
    else
      refIdx <-
        match selectWithFzf w refs "Select branch/tag" false with
        | None =>
            i <- selectWithEnquirerSingle w refs "Select branch or tag" ;;
            ret (Some i)
        | Some refIdxs => ret (Js.at_index refIdxs 0)
        end ;;
      let selectedRef :=
        match refIdx with
        | Some i => Js.at_index refs i
        | None => None
        end in
      emit (LogSelectedRef selectedRef) ;;
      let raw :=
        run w "gh" ["workflow"; "list"; "--limit"; "500"; "--json";
                    "name,path,state"] in
      match JSON_parse w raw with
      | None => emit (ConsoleError "Invalid workflow JSON.") ;; stop Returned
      | Some data =>
          let workflows :=
            map (fun x => (name x ++ SEP ++ path x)%string)
              (filter (fun x => (state x =? "active")%string) data) in
          if len workflows =? 0 then
            emit (ConsoleLog "No active workflows.") ;; stop Returned
          else
            wIdxs <-
              match selectWithFzf w workflows "Select workflows" true with
              | Some l => ret l
              | None =>
                  let (st, out) :=
                    selectWithEnquirerMulti workflows
                      "Select workflows to dispatch" (rounds w) in
                  emit_all out ;;
                  match st with
                  | Resolved l => ret l
                  | Looping _ => stop Waiting
                  end
              end ;;
            if len wIdxs =? 0 then
              emit (ConsoleLog "Nothing selected.") ;; stop Returned
            else
              let chosen := map (fun i => Js.at_index workflows i) wIdxs in
              emit (ConsoleLog (nl ++ "Will dispatch:")%string) ;;
              emit_all (map LogWillDispatch chosen) ;;
              ok <- confirm w "Proceed?" ;;
              if negb ok then emit (ConsoleLog "Cancelled.") ;; stop Returned
              else
                dispatch w selectedRef chosen ;;
                emit (ConsoleLog "Done.")
      end.

(** Running the session from an empty trace. *)
Definition session (w : World) : (unit + fin) * list event := runCLI w [].

End Session.

(** ** Vocabulary of the statements *)

Section Vocabulary.
Context {P : StringPrims}.

(** The names a pick prompt offers: the toggle and the visible items. *)
Definition presented (visible : list entry) : list string :=
  TOGGLE :: map it visible.

Fixpoint choice_names (cs : list choice) : list string :=
  match cs with
  | [] => []
  | Choice n _ _ _ :: cs' => n :: choice_names cs'
  | Separator :: cs' => choice_names cs'
  end.

(** [v] is the display string of a visible entry. *)
Definition shown (visible : list entry) (v : string) : bool :=
  existsb (fun e => (it e =? v)%string) visible.

(** [v] matches the lower-cased query [q]. *)
Definition matches (q v : string) : bool :=
  (q =? "")%string || Js.includes (toLowerCase v) q.

(** The pick round of a turn: the visible subset and the submitted picks,
    when the turn reaches the update of the selection state. *)
Definition pickRound (items : list string) (r : round)
    : option (list entry * list string) :=
  match typed r, picked r with
  | Answer raw, Answer result =>
      let filter_ := trim raw in
      if (filter_ =? ":done")%string || (filter_ =? ":reset")%string then None
      else
        let visible := visibleOf items (toLowerCase filter_) in
        if len visible =? 0 then None else Some (visible, result)
  | _, _ => None
  end.

(** The contract of the pick prompt: what is submitted was offered. *)
Definition picks_ok (items : list string) (r : round) : bool :=
  match pickRound items r with
  | Some (visible, result) =>
      forallb (fun v => Js.arr_includes (presented visible) v) result
  | None => true
  end.

(** The operator typed the [:reset] command. *)
Definition is_reset (r : round) : bool :=
  match typed r with
  | Answer raw => (trim raw =? ":reset")%string
  | Interrupt => false
  end.

(** The turn's filter does not show [v]: the query of a turn that is
    not [:reset], and [v] does not match it. *)
Definition hides (r : round) (v : string) : bool :=
  match typed r with
  | Answer raw =>
      negb (trim raw =? ":reset")%string
      && negb (matches (toLowerCase (trim raw)) v)
  | Interrupt => true
  end.

(** The only toggle: the toggle is submitted and nothing else is. *)
Definition toggle_only (result : list string) : bool :=
  Js.arr_includes result TOGGLE
  && (len (filter (fun v => negb (v =? TOGGLE)%string) result) =? 0).

End Vocabulary.

(** The command invocations of a trace, in order. *)
Fixpoint runs (tr : list event) : list (option string * option string) :=
  match tr with
  | [] => []
  | GhWorkflowRun p r :: tr' => (p, r) :: runs tr'
  | _ :: tr' => runs tr'
  end.

(** The trace without the prompts: the console output and the commands. *)
Definition console (tr : list event) : list event :=
  filter (fun e =>
            match e with
            | InputPrompt _ | MultiSelectPrompt _ _
            | AutoCompletePrompt _ _ | ConfirmPrompt _ => false
            | _ => true
            end) tr.

(** The events of one turn of the dispatch loop, for the workflow [c],
    after the trace [tr]. *)
Definition turn_events (w : World) (selectedRef : option string) (c : string)
    (tr : list event) : list event :=
  let path := Js.at_index (Js.split c SEP) 1 in
  [LogDispatching path selectedRef; GhWorkflowRun path selectedRef]
    ++ match execFileSync w (tr ++ [LogDispatching path selectedRef;
                                    GhWorkflowRun path selectedRef]) with
       | Some message => [LogFailed message]
       | None => []
       end.

(** ** Worked inputs *)

Definition abc : list string := ["alpha"; "beta"; "gamma"].

(** Filter "a" shows all three items; the toggle is submitted alone. *)
Definition toggle_round : round :=
  {| typed := Answer " A "; picked := Answer [TOGGLE] |}.

(** Filter "a"; the toggle is submitted together with "beta". *)
Definition override_round : round :=
  {| typed := Answer "a"; picked := Answer [TOGGLE; "beta"] |}.

(** Filter "alp" shows "alpha" alone, which is picked. *)
Definition alpha_round : round :=
  {| typed := Answer "alp"; picked := Answer ["alpha"] |}.

Definition done_round : round :=
  {| typed := Answer ":done"; picked := Interrupt |}.

(** Filter "bet" shows "beta" alone, which is picked. *)
Definition beta_round : round :=
  {| typed := Answer "bet"; picked := Answer ["beta"] |}.

(** The empty filter shows everything; the toggle is submitted alone. *)
Definition toggle_all_round : round :=
  {| typed := Answer ""; picked := Answer [TOGGLE] |}.

Definition deploy : workflow :=
  {| name := "Deploy"; path := ".github/workflows/deploy.yml"; state := "active" |}.

Definition test : workflow :=
  {| name := "Test"; path := ".github/workflows/test.yml"; state := "active" |}.

Definition retired : workflow :=
  {| name := "Old"; path := ".github/workflows/old.yml";
     state := "disabled_manually" |}.

(** A workflow whose name holds the display separator. *)
Definition nightly : workflow :=
  {| name := "Build — nightly"; path := ".github/workflows/build.yml";
     state := "active" |}.

Definition git_two_refs (cmd : string) (args : list string) : string :=
  if (cmd =? "git")%string then ("main" ++ nl ++ "v1.0" ++ nl)%string else "[]".

(** No fuzzy finder: the operator picks "main", toggles all workflows
    under the empty filter, enters [:done] and confirms. *)
Definition world_enquirer (data : list workflow)
    (exec : list event -> option string) : World :=
  {| has := fun cmd => negb (cmd =? "fzf")%string;
     run := git_two_refs;
     fzf := fun _ _ => "";
     JSON_parse := fun _ => Some data;
     autoComplete := Answer "main";
     rounds := [toggle_all_round; done_round];
     confirmed := Answer true;
     execFileSync := exec |}.

(** The fuzzy finder is there; the operator leaves the ref picker with
    an interrupt (it writes nothing), then picks the first workflow and
    confirms. *)
Definition world_ref_abort (exec : list event -> option string) : World :=
  {| has := fun _ => true;
     run := git_two_refs;
     fzf := fun args _ =>
       if Js.arr_includes args "--multi"
       then ("1" ++ tab ++ "Deploy — .github/workflows/deploy.yml" ++ nl)%string
       else "";
     JSON_parse := fun _ => Some [deploy; test];
     autoComplete := Interrupt;
     rounds := [];
     confirmed := Answer true;
     execFileSync := exec |}.

(** No fuzzy finder, and the operator interrupts the autocomplete prompt. *)
Definition world_single_abort : World :=
  {| has := fun cmd => negb (cmd =? "fzf")%string;
     run := git_two_refs;
     fzf := fun _ _ => "";
     JSON_parse := fun _ => Some [deploy; test];
     autoComplete := Interrupt;
     rounds := [];
     confirmed := Answer true;
     execFileSync := fun _ => None |}.

(** No fuzzy finder; "main" is picked, and the operator interrupts the
    pick prompt of the first round of the workflow selection. *)
Definition world_multi_abort : World :=
  {| has := fun cmd => negb (cmd =? "fzf")%string;
     run := git_two_refs;
     fzf := fun _ _ => "";
     JSON_parse := fun _ => Some [deploy; test];
     autoComplete := Answer "main";
     rounds := [{| typed := Answer "de"; picked := Interrupt |}];
     confirmed := Answer true;
     execFileSync := fun _ => None |}.

(** The first invocation fails, the others succeed. *)
Definition first_fails (tr : list event) : option string :=
  match runs tr with
  | [_] => Some "Command failed: gh workflow run"
  | _ => None
  end.

(** ** The refs of a session *)

Section Refs.
Context {P : StringPrims}.

(** The refs that step 1 of [runCLI] reads off the output of git. *)
Definition refsOf (w : World) : list string :=
  filter (fun s => negb (s =? "")%string)
    (map trim
       (Js.split
          (run w "git" ["for-each-ref"; "--format=%(refname:short)";
                        "refs/heads"; "refs/tags"]) nl)).

(** What step 3 of [runCLI] reads from the CI tool. *)
Definition raw_list (w : World) : string :=
  run w "gh" ["workflow"; "list"; "--limit"; "500"; "--json"; "name,path,state"].

(** The workflow labels that step 3 of [runCLI] builds from parsed data. *)
Definition workflowsOf (data : list workflow) : list string :=
  map (fun x => (name x ++ SEP ++ path x)%string)
    (filter (fun x => (state x =? "active")%string) data).

End Refs.

(** What a command that prints one record per line writes. *)
Fixpoint lines_out (records : list string) : string :=
  match records with
  | [] => ""
  | r :: rest => (r ++ nl ++ lines_out rest)%string
  end.

(** [items.map((_, i) => i)] *)
Definition indices {A : Type} (arr : list A) : list Z := mapi (fun _ i => i) arr.

(** ** The revision with the hardened fuzzy-finder handler

    The later revision of [src/index.js]: the close handler trims the token
    and maps a token that is not a number to -1, [main] ends the session
    when the ref picker resolves nothing, and the confirmation is a
    readline question.  Its filter loop and its dispatch loop are the ones
    above. *)

Module Hardened.

(** What this revision reads from the terminal and from the parser: the
    line typed at the readline question and the message of the exception
    of [JSON.parse]. *)
Record Terminal := {
  answer : string;
  parseError : string
}.

Section Rev.
Context {P : StringPrims}.

(** [line.split("\t", 1)[0]]: the limit keeps the first piece. *)
Definition firstToken (line : string) : string :=
  nth 0 (firstn 1 (Js.split line tab)) "".

Definition fzfClose (items : list string) (out : string) : list Z :=
  if (trim out =? "")%string then []
  else
    filter_num (fun i => (0 <=? i) && (i <? len items))
      (map (fun line =>
              let tok := trim (firstToken line) in
              match Js.parseInt tok with
              | None => Some (-1)
              | Some n => Some (n - 1)
              end)
           (Js.split (trim out) nl)).

Definition selectWithFzf (w : World) (items : list string) (prompt_ : string)
    (multi : bool) : option (list Z) :=
  if negb (has w "fzf") then None
  else if len items =? 0 then Some []
  else
    let input :=
      Js.join nl (mapi (fun item idx => decimal (idx + 1) ++ tab ++ item)%string items) in
    let header :=
      if multi
      then "Hint: use Space to select, Ctrl-A to toggle all VISIBLE items (after filtering)."
      else "" in
    let args :=
      ["--prompt"; (prompt_ ++ ": ")%string; "--layout=reverse"; "--ansi";
       "--header"; header]
        ++ (if multi then ["--multi"; "--bind"; "ctrl-a:toggle-all"] else []) in
    Some (fzfClose items (fzf w args input)).

(** The readline [confirm]: the question is shown, the line is read. *)
Definition confirm (t : Terminal) (message : string) : M bool :=
  emit (ConfirmPrompt (message ++ " (y/N) ")%string) ;;
  let a := toLowerCase (trim (answer t)) in
  ret ((a =? "y")%string || (a =? "yes")%string).

Definition main (w : World) (t : Terminal) : M unit :=
  if negb (has w "git") then
    emit (ConsoleError "git not found") ;; stop (Exited 1)
  else if negb (has w "gh") then
    emit (ConsoleError "gh not found") ;; stop (Exited 1)
  else
    let refs := refsOf w in
    if len refs =? 0 then emit (ConsoleLog "No refs found.") ;; stop Returned
    else
      refIdx <-
        match selectWithFzf w refs "Select branch/tag" false with
        | None =>
            i <- selectWithEnquirerSingle w refs "Select branch or tag" ;;
            ret (Some i)
        | Some refIdxs =>
            if len refIdxs =? 0 then
              emit (ConsoleLog "No selection.") ;; stop Returned
            else ret (Js.at_index refIdxs 0)
        end ;;
      let selectedRef :=
        match refIdx with
        | Some i => Js.at_index refs i
        | None => None
        end in
      emit (LogSelectedRef selectedRef) ;;
      let raw :=
        run w "gh" ["workflow"; "list"; "--limit"; "500"; "--json";
                    "name,path,state"] in
      match JSON_parse w raw with
      | None =>
          emit (ConsoleError ("Invalid workflow JSON: " ++ parseError t)%string) ;;
          stop Returned
      | Some data =>
          let workflows := workflowsOf data in
          if len workflows =? 0 then
            emit (ConsoleLog "No active workflows.") ;; stop Returned
          else
            wIdxs <-
              match selectWithFzf w workflows "Select workflows" true with
              | Some l => ret l
              | None =>
                  let (st, out) :=
                    selectWithEnquirerMulti workflows
                      "Select workflows to dispatch" (rounds w) in
                  emit_all out ;;
                  match st with
                  | Resolved l => ret l
                  | Looping _ => stop Waiting
                  end
              end ;;
            if len wIdxs =? 0 then
              emit (ConsoleLog "Nothing selected.") ;; stop Returned
            else
              let chosen := map (fun i => Js.at_index workflows i) wIdxs in
              emit (ConsoleLog (nl ++ "Will dispatch:")%string) ;;
              emit_all (map LogWillDispatch chosen) ;;
              ok <- confirm t "Proceed?" ;;
              if negb ok then emit (ConsoleLog "Cancelled.") ;; stop Returned
              else
                dispatch w selectedRef chosen ;;
                emit (ConsoleLog "Done.")
      end.

End Rev.
End Hardened.

(** ** The revision with a select-all line

    An earlier revision of [src/index.js]: in multi mode the fuzzy finder
    is given a first line [__SELECT_ALL__] numbered 0, and the enquirer
    multi-select is one prompt with a toggle entry. *)

Module SelectAll.
Section Rev.
Context {P : StringPrims}.

(** The [close] handler, for the flag [hasToggle]. *)
Definition fzfClose (items : list string) (hasToggle : bool) (out : string)
    : list Z :=
  if (trim out =? "")%string then []
  else
    let idxs :=
      map (fun line => Js.parseInt (nth 0 (Js.split line tab) ""))
        (Js.split (trim out) nl) in
    if hasToggle
       && existsb (fun i => match i with Some n => n =? 0 | None => false end) idxs
    then indices items
    else if hasToggle then
      filter_num (fun i => (0 <=? i) && (i <? len items))
        (map (option_map (fun i => i - 1)) idxs)
    else filter_num (fun i => (0 <=? i) && (i <? len items)) idxs.

Definition selectWithFzf (w : World) (items : list string) (prompt_ : string)
    (multi : bool) : option (list Z) :=
  if negb (has w "fzf") then None
  else if len items =? 0 then Some []
  else
    let list := if multi then "__SELECT_ALL__" :: items else items in
    let hasToggle := multi in
    let input :=
      Js.join nl (mapi (fun item idx => decimal idx ++ tab ++ item)%string list) in
    let args :=
      ["--prompt"; (prompt_ ++ ": ")%string; "--layout=reverse"]
        ++ (if multi then ["--multi"] else []) in
    Some (fzfClose items hasToggle (fzf w args input)).

Definition TOGGLE_ALL : string := "__TOGGLE_ALL__".

(** [selectWithEnquirerMulti], from the array [ans] that the prompt
    resolves to the indices returned. *)
Definition selectWithEnquirerMulti (items : list string) (ans : list string)
    : list Z :=
  if Js.arr_includes ans TOGGLE_ALL then
    let rest := filter (fun v => negb (v =? TOGGLE_ALL)%string) ans in
    if len rest =? 0 then indices items
    else
      filter_num (fun i => 0 <=? i)
        (map (fun v => Some (Js.indexOf items v)) rest)
  else
    filter_num (fun i => 0 <=? i)
      (map (fun v => Some (Js.indexOf items v)) ans).

End Rev.
End SelectAll.

(** More worked inputs. *)

Definition reset_round : round :=
  {| typed := Answer " :reset"; picked := Interrupt |}.

(** Filter "a"; "alpha", the one pre-marked item, is submitted again. *)
Definition same_round : round :=
  {| typed := Answer "a"; picked := Answer ["alpha"] |}.

(** The fuzzy finder is there and always writes back the first line of
    a list that starts with "main" or with the deploy workflow. *)
Definition world_fzf_first : World :=
  {| has := fun _ => true;
     run := git_two_refs;
     fzf := fun args _ =>
       if Js.arr_includes args "--multi"
       then ("1" ++ tab ++ "Deploy — .github/workflows/deploy.yml" ++ nl)%string
       else ("1" ++ tab ++ "main" ++ nl)%string;
     JSON_parse := fun _ => Some [deploy; test];
     autoComplete := Interrupt;
     rounds := [];
     confirmed := Answer true;
     execFileSync := fun _ => None |}.

(** The fuzzy finder writes back the second line, then the first. *)
Definition world_fzf_echo : World :=
  {| has := fun _ => true;
     run := git_two_refs;
     fzf := fun _ _ =>
       ("2" ++ tab ++ "v1.0" ++ nl ++ "1" ++ tab ++ "main" ++ nl)%string;
     JSON_parse := fun _ => Some [deploy; test];
     autoComplete := Interrupt;
     rounds := [];
     confirmed := Answer true;
     execFileSync := fun _ => None |}.

(** In the revision with the select-all line: the line numbered 0 and
    the second item are written back. *)
Definition world_fzf_all : World :=
  {| has := fun _ => true;
     run := git_two_refs;
     fzf := fun _ _ =>
       ("2" ++ tab ++ "v1.0" ++ nl ++ "0" ++ tab ++ "__SELECT_ALL__" ++ nl)%string;
     JSON_parse := fun _ => Some [deploy; test];
     autoComplete := Interrupt;
     rounds := [];
     confirmed := Answer true;
     execFileSync := fun _ => None |}.

Definition typed_yes : Hardened.Terminal :=
  {| Hardened.answer := " Yes "; Hardened.parseError := "Unexpected end of JSON input" |}.

(** A byte that is a decimal digit. *)
Definition digit_char (c : ascii) : bool :=
  match Js.digit c with Some _ => true | None => false end.

(** Text of the ASCII range: every byte is below 128, so every byte is a
    character.  On such text [String.prototype.trim] removes the six
    characters of [Js.isSpace] and nothing else, and
    [String.prototype.toLowerCase] changes the letters A to Z and nothing
    else. *)
Definition ascii_only (s : string) : bool :=
  forallb (fun c => (nat_of_ascii c <? 128)%nat) (list_ascii_of_string s).

(** ** Letter case, in the words of the specification

    What the specification calls a case-insensitive substring, written
    without the lower-casing the code uses: two characters are the same
    letter when they are equal, or when one is an upper-case letter of A to
    Z and the other is its lower-case form, 32 places further on. *)
Module Spec.




End Spec.

(** * Properties *)

(** ** Strings and arrays *)

Lemma eqb_sym_bool (a b : string) : (a =? b)%string = (b =? a)%string.
Proof.
  destruct (String.eqb_spec a b) as [->|Hab].
  - now rewrite String.eqb_refl.
  - symmetry. apply String.eqb_neq. congruence.
Qed.

Lemma existsb_eqb_In (l : list string) (v : string) :
  existsb (fun x => (x =? v)%string) l = true <-> In v l.
Proof.
  rewrite existsb_exists. split.
  - intros [x [Hin Heq]]. apply String.eqb_eq in Heq. now subst.
  - intros Hin. exists v. split; [assumption | apply String.eqb_refl].
Qed.

Lemma prefix_app (q s : string) :
  String.prefix q s = true <-> exists post, s = (q ++ post)%string.
Proof.
  revert s. induction q as [|c q IH]; intros s.
  - split; [intros _; now exists s | destruct s; reflexivity].
  - destruct s as [|d s]; simpl.
    + split; [discriminate | intros [post Hp]; discriminate].
    + destruct (Ascii.ascii_dec c d) as [->|Hcd].
      * rewrite IH. split; intros [post Hp]; exists post.
        -- now rewrite Hp.
        -- now inversion Hp.
      * split; [discriminate | intros [post Hp]; inversion Hp; congruence].
Qed.

Lemma includes_unfold (s q : string) :
  Js.includes s q =
  if String.prefix q s then true
  else match s with
       | EmptyString => false
       | String _ s' => Js.includes s' q
       end.
Proof. destruct s; reflexivity. Qed.

(** [includes] is the substring test. *)
Lemma includes_substring (s q : string) :
  Js.includes s q = true <-> exists pre post, s = (pre ++ q ++ post)%string.
Proof.
  induction s as [|c s IH]; rewrite includes_unfold;
    destruct (String.prefix q _) eqn:Hp.
  - apply prefix_app in Hp. destruct Hp as [post Hp].
    split; [intros _; exists "", post; exact Hp | reflexivity].
  - split; [discriminate|].
    intros [pre [post H]]. destruct pre; simpl in H.
    + assert (String.prefix q "" = true) by (apply prefix_app; now exists post).
      congruence.
    + discriminate.
  - apply prefix_app in Hp. destruct Hp as [post Hp].
    split; [intros _; exists "", post; exact Hp | reflexivity].
  - rewrite IH. split.
    + intros [pre [post H]]. exists (String c pre), post. simpl. now rewrite H.
    + intros [pre [post H]]. destruct pre as [|d pre]; simpl in H.
      * assert (String.prefix q (String c s) = true)
          by (apply prefix_app; now exists post).
        congruence.
      * inversion H. now exists pre, post.
Qed.

Lemma includes_empty (s : string) : Js.includes s "" = true.
Proof. apply includes_substring. now exists "", s. Qed.

Lemma indexOf_from_range (arr : list string) (v : string) (k : Z) :
  let i := Js.indexOf_from arr v k in
  (i = -1 /\ ~ In v arr) \/
  (k <= i < k + len arr /\ nth_error arr (Z.to_nat (i - k)) = Some v).
Proof.
  unfold len. revert k. induction arr as [|x xs IH]; intros k; simpl.
  - left. split; [reflexivity | tauto].
  - destruct (String.eqb_spec x v) as [->|Hne].
    + right. split; [lia|]. now rewrite Z.sub_diag.
    + destruct (IH (k + 1)) as [[Hi Hn] | [Hr Hnth]].
      * left. split; [exact Hi | intros [H|H]; [congruence | tauto]].
      * right. split; [lia|].
        replace (Z.to_nat (Js.indexOf_from xs v (k + 1) - k))
          with (S (Z.to_nat (Js.indexOf_from xs v (k + 1) - (k + 1)))) by lia.
        exact Hnth.
Qed.

Lemma indexOf_In (arr : list string) (v : string) :
  0 <= Js.indexOf arr v <-> In v arr.
Proof.
  unfold Js.indexOf.
  destruct (indexOf_from_range arr v 0) as [[Hi Hn] | [Hr Hnth]].
  - rewrite Hi. split; [lia | tauto].
  - split; [intros _; eapply nth_error_In; exact Hnth | lia].
Qed.

Lemma indexOf_at (arr : list string) (v : string) :
  In v arr ->
  0 <= Js.indexOf arr v < len arr /\ Js.at_index arr (Js.indexOf arr v) = Some v.
Proof.
  intros Hin. unfold Js.indexOf, Js.at_index.
  destruct (indexOf_from_range arr v 0) as [[Hi Hn] | [Hr Hnth]]; [tauto|].
  split; [lia|].
  destruct (Z.ltb_spec (Js.indexOf_from arr v 0) 0); [lia|].
  now rewrite Z.sub_0_r in Hnth.
Qed.

Lemma indexOf_from_first (arr : list string) (v : string) (k : Z) (n : nat) :
  NoDup arr -> nth_error arr n = Some v ->
  Js.indexOf_from arr v k = k + Z.of_nat n.
Proof.
  revert k n. induction arr as [|x xs IH]; intros k n Hnd Hn.
  - destruct n; discriminate.
  - simpl. inversion Hnd as [|? ? Hx Hxs]; subst.
    destruct n as [|n]; simpl in Hn.
    + inversion Hn; subst. rewrite String.eqb_refl. lia.
    + destruct (String.eqb_spec x v) as [->|Hne].
      * exfalso. apply Hx. eapply nth_error_In; exact Hn.
      * rewrite (IH (k + 1) n Hxs Hn). lia.
Qed.

Lemma filter_num_all (p : Z -> bool) (l : list Z) :
  (forall i, In i l -> p i = true) -> filter_num p (map Some l) = l.
Proof.
  induction l as [|i l IH]; intros H; simpl; [reflexivity|].
  rewrite (H i (or_introl eq_refl)). f_equal. apply IH.
  intros j Hj. apply H. now right.
Qed.

Lemma filter_num_In (p : Z -> bool) (l : list (option Z)) (i : Z) :
  In i (filter_num p l) <-> In (Some i) l /\ p i = true.
Proof.
  induction l as [|[j|] l IH]; simpl.
  - tauto.
  - destruct (p j) eqn:Hp; simpl; rewrite IH; split.
    + intros [->|[H1 H2]]; auto.
    + intros [[H|H] H2]; [inversion H; auto | auto].
    + intros [H1 H2]; auto.
    + intros [[H|H] H2]; [inversion H; subst; congruence | auto].
  - rewrite IH. split; [intros [H1 H2]; auto | intros [[H|H] H2]; [discriminate | auto]].
Qed.

(** ** The selection state *)

Module JSSetFacts.
Import JSSet.

Lemma has_In (s : t) (v : string) : has s v = true <-> In v s.
Proof. apply existsb_eqb_In. Qed.

Lemma has_add (s : t) (v x : string) :
  has (add s v) x = has s x || (v =? x)%string.
Proof.
  unfold add. destruct (has s v) eqn:Hv.
  - destruct (String.eqb_spec v x) as [->|_].
    + rewrite Hv. reflexivity.
    + now rewrite orb_false_r.
  - unfold has. rewrite existsb_app. simpl. now rewrite orb_false_r.
Qed.

Lemma has_delete (s : t) (v x : string) :
  has (delete s v) x = has s x && negb (v =? x)%string.
Proof.
  unfold has, delete. induction s as [|y s IH]; simpl; [reflexivity|].
  destruct (String.eqb_spec y v) as [->|Hyv]; simpl.
  - rewrite IH. destruct (String.eqb_spec v x); simpl.
    + now rewrite andb_false_r.
    + now rewrite andb_true_r.
  - rewrite IH. destruct (String.eqb_spec y x) as [->|Hyx]; simpl; [|reflexivity].
    destruct (String.eqb_spec v x); [congruence | reflexivity].
Qed.

Lemma NoDup_add (s : t) (v : string) : NoDup s -> NoDup (add s v).
Proof.
  intros Hnd. unfold add. destruct (has s v) eqn:Hv; [assumption|].
  assert (~ In v s) by (rewrite <- has_In; congruence).
  clear Hv. induction s as [|y s IH]; simpl.
  - constructor; [tauto | constructor].
  - inversion Hnd; subst. constructor.
    + rewrite in_app_iff. simpl. intros [Hy|[Hy|[]]]; [tauto|].
      subst. apply H. now left.
    + apply IH; [assumption | intros Hin; apply H; now right].
Qed.

Lemma NoDup_delete (s : t) (v : string) : NoDup s -> NoDup (delete s v).
Proof. apply NoDup_filter. Qed.

End JSSetFacts.

(** ** The update of a pick round *)

Section UpdateFacts.
Context {P : StringPrims}.
Import JSSetFacts.

Lemma has_delete_all (visible : list entry) (s : JSSet.t) (x : string) :
  JSSet.has (fold_left (fun s e => JSSet.delete s (it e)) visible s) x
  = JSSet.has s x && negb (shown visible x).
Proof.
  unfold shown. revert s. induction visible as [|e vis IH]; intros s; simpl.
  - now rewrite andb_true_r.
  - rewrite IH, has_delete, negb_orb. now rewrite andb_assoc.
Qed.

Lemma has_add_entries (visible : list entry) (s : JSSet.t) (x : string) :
  JSSet.has (fold_left (fun s e => JSSet.add s (it e)) visible s) x
  = JSSet.has s x || shown visible x.
Proof.
  unfold shown. revert s. induction visible as [|e vis IH]; intros s; simpl.
  - now rewrite orb_false_r.
  - rewrite IH, has_add. now rewrite orb_assoc.
Qed.

Lemma has_add_all (l : list string) (s : JSSet.t) (x : string) :
  JSSet.has (fold_left JSSet.add l s) x = JSSet.has s x || Js.arr_includes l x.
Proof.
  unfold Js.arr_includes. revert s. induction l as [|v l IH]; intros s; simpl.
  - now rewrite orb_false_r.
  - rewrite IH, has_add. now rewrite orb_assoc.
Qed.

Lemma rest_includes (result : list string) (x : string) :
  Js.arr_includes (filter (fun v => negb (v =? TOGGLE)%string) result) x
  = Js.arr_includes result x && negb (x =? TOGGLE)%string.
Proof.
  unfold Js.arr_includes.
  induction result as [|v l IH]; cbn [filter existsb]; [reflexivity|].
  destruct (String.eqb_spec v TOGGLE) as [->|Hv]; cbn [negb existsb]; rewrite IH.
  - rewrite (eqb_sym_bool TOGGLE x).
    destruct (x =? TOGGLE)%string; cbn [negb orb];
      [now rewrite !andb_false_r | reflexivity].
  - destruct (String.eqb_spec v x) as [->|Hvx]; cbn [orb]; [|reflexivity].
    destruct (String.eqb_spec x TOGGLE); [congruence | reflexivity].
Qed.

(** Membership after the update, in its three cases. *)
Lemma has_update (visible : list entry) (s : JSSet.t) (result : list string)
    (x : string) :
  JSSet.has (update visible s result) x =
  if toggle_only result then
    if forallb (fun e => JSSet.has s (it e)) visible
    then JSSet.has s x && negb (shown visible x)
    else JSSet.has s x || shown visible x
  else
    (JSSet.has s x && negb (shown visible x))
    || (Js.arr_includes result x && negb (x =? TOGGLE)%string).
Proof.
  unfold update, toggle_only.
  destruct (Js.arr_includes result TOGGLE) eqn:Ht; simpl.
  - destruct (len (filter _ result) =? 0) eqn:Hr.
    + destruct (forallb _ visible); [apply has_delete_all | apply has_add_entries].
    + now rewrite has_add_all, has_delete_all, rest_includes.
  - rewrite has_add_all, has_delete_all. f_equal.
    destruct (String.eqb_spec x TOGGLE) as [->|_]; simpl.
    + now rewrite Ht.
    + now rewrite andb_true_r.
Qed.

Lemma update_not_toggle_only (visible : list entry) (s : JSSet.t)
    (result : list string) :
  toggle_only result = false ->
  update visible s result =
  fold_left JSSet.add (filter (fun v => negb (v =? TOGGLE)%string) result)
    (fold_left (fun s e => JSSet.delete s (it e)) visible s).
Proof.
  unfold update, toggle_only. intros H.
  destruct (Js.arr_includes result TOGGLE) eqn:Ht; simpl in H.
  - now rewrite H.
  - f_equal. symmetry. apply forallb_filter_id. apply forallb_forall.
    intros v Hv. destruct (String.eqb_spec v TOGGLE) as [->|_]; [|reflexivity].
    apply existsb_eqb_In in Hv. unfold Js.arr_includes in Ht. congruence.
Qed.

Lemma update_toggle_only (visible : list entry) (s : JSSet.t)
    (result : list string) :
  toggle_only result = true ->
  update visible s result =
  if forallb (fun e => JSSet.has s (it e)) visible
  then fold_left (fun s e => JSSet.delete s (it e)) visible s
  else fold_left (fun s e => JSSet.add s (it e)) visible s.
Proof.
  unfold update, toggle_only. intros H. apply andb_prop in H as [Ht Hr].
  now rewrite Ht, Hr.
Qed.

(** The list that stands for the set never repeats a member. *)
Lemma NoDup_update (visible : list entry) (s : JSSet.t) (result : list string) :
  NoDup s -> NoDup (update visible s result).
Proof.
  assert (Hdel : forall vis s0, NoDup s0 ->
            NoDup (fold_left (fun s e => JSSet.delete s (it e)) vis s0)).
  { induction vis as [|e vis IH]; intros s0 H0; [exact H0|].
    apply IH. now apply NoDup_delete. }
  assert (Hadd : forall l s0, NoDup s0 -> NoDup (fold_left JSSet.add l s0)).
  { induction l as [|v l IH]; intros s0 H0; [exact H0|].
    apply IH. now apply NoDup_add. }
  assert (Hall : forall vis s0, NoDup s0 ->
            NoDup (fold_left (fun s e => JSSet.add s (it e)) vis s0)).
  { induction vis as [|e vis IH]; intros s0 H0; [exact H0|].
    apply IH. now apply NoDup_add. }
  intros Hs. unfold update.
  destruct (Js.arr_includes result TOGGLE).
  - destruct (len _ =? 0).
    + destruct (forallb _ visible); auto.
    + auto.
  - auto.
Qed.

Lemma shown_In (visible : list entry) (v : string) :
  shown visible v = true <-> In v (map it visible).
Proof.
  unfold shown. rewrite existsb_exists, in_map_iff. split.
  - intros [e [He Heq]]. apply String.eqb_eq in Heq. now exists e.
  - intros [e [Heq He]]. exists e. split; [assumption|]. now apply String.eqb_eq.
Qed.

Lemma allSelected_shown (visible : list entry) (s : JSSet.t) :
  forallb (fun e => JSSet.has s (it e)) visible = true <->
  (forall v, shown visible v = true -> JSSet.has s v = true).
Proof.
  rewrite forallb_forall. split.
  - intros H v Hv. apply shown_In in Hv. apply in_map_iff in Hv.
    destruct Hv as [e [<- He]]. now apply H.
  - intros H e He. apply H. apply shown_In. now apply in_map.
Qed.

(** The names offered by the choices of a pick prompt. *)
Lemma presented_choices (visible : list entry) (s : JSSet.t) :
  choice_names (choicesOf visible s) = presented visible.
Proof.
  unfold choicesOf, presented. cbn [choice_names]. f_equal.
  induction visible as [|e vis IH]; cbn [map choice_names]; [reflexivity|].
  now rewrite IH.
Qed.

(** A turn that reaches the update is one step of the loop with it, and
    has shown the pick prompt with the choices of the visible subset. *)
Lemma iteration_pickRound (items : list string) (message : string)
    (s : JSSet.t) (r : round) (visible : list entry) (result : list string) :
  pickRound items r = Some (visible, result) ->
  fst (iteration items message s r) = Looping (update visible s result) /\
  exists msg,
    In (MultiSelectPrompt msg (choicesOf visible s))
       (snd (iteration items message s r)).
Proof.
  unfold pickRound, iteration.
  destruct (typed r) as [raw|]; [|discriminate].
  destruct (picked r) as [res|]; [|discriminate].
  destruct (trim raw =? ":done")%string; [discriminate|].
  destruct (trim raw =? ":reset")%string; [discriminate|]. cbn [orb].
  destruct (len _ =? 0); [discriminate|].
  intros H. inversion H; subst. split; [reflexivity|].
  eexists. cbn [snd]. right. left. reflexivity.
Qed.

End UpdateFacts.

(** ** Pick rounds: the toggle and the explicit picks *)

Section PickRounds.
Context {P : StringPrims}.
Variable message : string.
Import JSSetFacts.

Lemma pickRound_nonempty (items : list string) (r : round)
    (visible : list entry) (result : list string) :
  pickRound items r = Some (visible, result) -> exists e, In e visible.
Proof.
  unfold pickRound.
  destruct (typed r); [|discriminate]. destruct (picked r); [|discriminate].
  destruct (_ || _); [discriminate|].
  destruct (len _ =? 0) eqn:Hl; [discriminate|].
  intros H. inversion H; subst. clear H.
  destruct (visibleOf _ _) as [|e l]; [discriminate|].
  exists e. now left.
Qed.

Lemma not_all_after_removal (visible : list entry) (s s1 : JSSet.t) :
  (exists e, In e visible) ->
  (forall v, JSSet.has s1 v = JSSet.has s v && negb (shown visible v)) ->
  forallb (fun e => JSSet.has s1 (it e)) visible = false.
Proof.
  intros [e He] H1.
  destruct (forallb _ visible) eqn:Hall; [|reflexivity].
  rewrite forallb_forall in Hall. specialize (Hall e He).
  rewrite H1 in Hall.
  assert (shown visible (it e) = true) by (apply shown_In; now apply in_map).
  rewrite H in Hall. now rewrite andb_false_r in Hall.
Qed.

Lemma all_after_addition (visible : list entry) (s s1 : JSSet.t) :
  (forall v, JSSet.has s1 v = JSSet.has s v || shown visible v) ->
  forallb (fun e => JSSet.has s1 (it e)) visible = true.
Proof.
  intros H1. apply allSelected_shown. intros v Hv.
  rewrite H1, Hv. apply orb_true_r.
Qed.

(** The toggle alone, once: membership after the round. *)
Lemma toggle_once (visible : list entry) (s : JSSet.t) (result : list string)
    (v : string) :
  toggle_only result = true ->
  JSSet.has (update visible s result) v =
  if forallb (fun e => JSSet.has s (it e)) visible
  then JSSet.has s v && negb (shown visible v)
  else JSSet.has s v || shown visible v.
Proof. intros H. now rewrite has_update, H. Qed.

(** The toggle alone, twice over the same visible subset. *)
Lemma toggle_twice (visible : list entry) (s : JSSet.t)
    (result result' : list string) (v : string) :
  (exists e, In e visible) ->
  toggle_only result = true -> toggle_only result' = true ->
  JSSet.has (update visible (update visible s result) result') v =
  if forallb (fun e => JSSet.has s (it e)) visible
  then JSSet.has s v
  else JSSet.has s v && negb (shown visible v).
Proof.
  intros Hne H1 H2. rewrite (toggle_once _ _ result' v H2).
  destruct (forallb (fun e => JSSet.has s (it e)) visible) eqn:Hall.
  - rewrite (not_all_after_removal visible s); auto.
    + rewrite (toggle_once _ _ result v H1), Hall.
      destruct (shown visible v) eqn:Hv.
      * rewrite (proj1 (allSelected_shown visible s) Hall v Hv). reflexivity.
      * now rewrite andb_true_r, orb_false_r.
    + intros x. now rewrite (toggle_once _ _ result x H1), Hall.
  - rewrite (all_after_addition visible s).
    + rewrite (toggle_once _ _ result v H1), Hall.
      destruct (shown visible v); simpl;
        [now rewrite !andb_false_r | now rewrite !andb_true_r, orb_false_r].
    + intros x. now rewrite (toggle_once _ _ result x H1), Hall.
Qed.

(** C2 (as amended): when the picks of a round are the toggle alone, the
    visible subset is switched as a block: all of it leaves the selection
    state when it was all selected, all of it joins otherwise.  The same
    submission twice in a row over one visible subset gives back the
    membership there was before exactly when the visible items were all
    selected or none of them was; when only some were, none is selected
    afterwards. *)
Theorem C2_toggle_only_block (items : list string) (s : JSSet.t)
    (r r' : round) (visible : list entry) (result result' : list string) :
  pickRound items r = Some (visible, result) ->
  toggle_only result = true ->
  pickRound items r' = Some (visible, result') ->
  toggle_only result' = true ->
  exists s1 s2,
    fst (iteration items message s r) = Looping s1 /\
    fst (iteration items message s1 r') = Looping s2 /\
    (forall v, JSSet.has s1 v =
       if forallb (fun e => JSSet.has s (it e)) visible
       then JSSet.has s v && negb (shown visible v)
       else JSSet.has s v || shown visible v) /\
    (forall v, JSSet.has s2 v =
       if forallb (fun e => JSSet.has s (it e)) visible
       then JSSet.has s v
       else JSSet.has s v && negb (shown visible v)) /\
    ((forall v, JSSet.has s2 v = JSSet.has s v) <->
     (forall v, shown visible v = true -> JSSet.has s v = true) \/
     (forall v, shown visible v = true -> JSSet.has s v = false)).
Proof.
  intros Hr Ht Hr' Ht'.
  exists (update visible s result), (update visible (update visible s result) result').
  pose proof (pickRound_nonempty _ _ _ _ Hr) as Hne.
  split; [now apply iteration_pickRound|].
  split; [now apply iteration_pickRound|].
  split; [intros v; now apply toggle_once|].
  split; [intros v; now apply toggle_twice|].
  split.
  - intros Hsame.
    destruct (forallb (fun e => JSSet.has s (it e)) visible) eqn:Hall.
    + left. now apply allSelected_shown.
    + right. intros v Hv. specialize (Hsame v).
      rewrite (toggle_twice visible s result result' v Hne Ht Ht'), Hall, Hv in Hsame.
      now rewrite andb_false_r in Hsame.
  - intros Hcase v.
    rewrite (toggle_twice visible s result result' v Hne Ht Ht').
    destruct (forallb (fun e => JSSet.has s (it e)) visible) eqn:Hall;
      [reflexivity|].
    destruct Hcase as [Hall'|Hnone].
    + apply allSelected_shown in Hall'. congruence.
    + destruct (shown visible v) eqn:Hv.
      * now rewrite (Hnone v Hv).
      * now rewrite andb_true_r.
Qed.

(** C3: when the picks of a round are not the toggle alone (the toggle
    with other entries, or no toggle), every visible item is removed from
    the selection state and then exactly the submitted entries other than
    the toggle are added; the members of the state among the visible items
    are then exactly those entries. *)
Theorem C3_explicit_picks_replace_visible (items : list string) (s : JSSet.t)
    (r : round) (visible : list entry) (result : list string) :
  pickRound items r = Some (visible, result) ->
  picks_ok items r = true ->
  toggle_only result = false ->
  exists s',
    fst (iteration items message s r) = Looping s' /\
    s' = fold_left JSSet.add
           (filter (fun v => negb (v =? TOGGLE)%string) result)
           (fold_left (fun s e => JSSet.delete s (it e)) visible s) /\
    (forall v, JSSet.has s' v = true /\ shown visible v = true <->
               In v (filter (fun v => negb (v =? TOGGLE)%string) result)).
Proof.
  intros Hr Hok Ht. exists (update visible s result).
  split; [now apply iteration_pickRound|].
  split; [now apply update_not_toggle_only|].
  intros v. rewrite has_update, Ht.
  rewrite <- existsb_eqb_In.
  change (existsb (fun x => (x =? v)%string) ?l) with (Js.arr_includes l v).
  rewrite rest_includes.
  unfold picks_ok in Hok. rewrite Hr in Hok. rewrite forallb_forall in Hok.
  split.
  - intros [Hh Hs]. rewrite Hs, andb_false_r in Hh. exact Hh.
  - intros Hin. split; [rewrite Hin; apply orb_true_r|].
    apply andb_prop in Hin as [Hin Hnt].
    apply existsb_eqb_In in Hin. specialize (Hok v Hin).
    unfold presented, Js.arr_includes in Hok. cbn [existsb] in Hok.
    rewrite (eqb_sym_bool TOGGLE v) in Hok.
    destruct (v =? TOGGLE)%string; [discriminate|]. cbn [orb] in Hok.
    apply shown_In. now apply existsb_eqb_In.
Qed.

End PickRounds.

(** ** The visible subset *)

Section Visible.
Context {P : StringPrims}.



Lemma map_it_mapi_from (items : list string) (k : Z) :
  map it (mapi_from mk_entry items k) = items.
Proof.
  revert k. induction items as [|x xs IH]; intros k; simpl; [reflexivity|].
  now rewrite IH.
Qed.



(** Both branches of the source are one filter of the indexed items. *)
Lemma visibleOf_filter (items : list string) (q : string) :
  visibleOf items q =
  filter (fun e => Js.includes (toLowerCase (it e)) q) (mapi mk_entry items).
Proof.
  unfold visibleOf.
  destruct (String.eqb_spec q "") as [->|_]; [|reflexivity].
  symmetry. apply forallb_filter_id. apply forallb_forall.
  intros e _. apply includes_empty.
Qed.

Lemma visibleOf_matches (items : list string) (q : string) :
  visibleOf items q = filter (fun e => matches q (it e)) (mapi mk_entry items).
Proof.
  unfold visibleOf, matches.
  destruct (String.eqb_spec q "") as [->|_]; [|reflexivity].
  symmetry. apply forallb_filter_id. apply forallb_forall. reflexivity.
Qed.

Lemma shown_visibleOf (items : list string) (q v : string) :
  shown (visibleOf items q) v = true <-> In v items /\ matches q v = true.
Proof.
  rewrite shown_In, visibleOf_matches, in_map_iff. split.
  - intros [e [<- He]]. apply filter_In in He as [He Hm]. split; [|exact Hm].
    rewrite <- (map_it_mapi_from items 0). now apply in_map.
  - intros [Hin Hm]. rewrite <- (map_it_mapi_from items 0) in Hin.
    apply in_map_iff in Hin. destruct Hin as [e [<- He]].
    exists e. split; [reflexivity|]. apply filter_In. now split.
Qed.

End Visible.

(** ** Lower-casing and letter case *)









(** ** Worked rounds *)


Lemma C2_toggle_only_block_witness :
  exists s1 s2,
    fst (iteration abc "Select" [] toggle_round) = Looping s1 /\
    fst (iteration abc "Select" s1 toggle_round) = Looping s2 /\
    (forall v, JSSet.has s1 v =
       if forallb (fun e => JSSet.has [] (it e)) (visibleOf abc "a")
       then JSSet.has [] v && negb (shown (visibleOf abc "a") v)
       else JSSet.has [] v || shown (visibleOf abc "a") v) /\
    (forall v, JSSet.has s2 v =
       if forallb (fun e => JSSet.has [] (it e)) (visibleOf abc "a")
       then JSSet.has [] v
       else JSSet.has [] v && negb (shown (visibleOf abc "a") v)) /\
    ((forall v, JSSet.has s2 v = JSSet.has [] v) <->
     (forall v, shown (visibleOf abc "a") v = true -> JSSet.has [] v = true) \/
     (forall v, shown (visibleOf abc "a") v = true -> JSSet.has [] v = false)).
Proof.
  apply (C2_toggle_only_block "Select" abc [] toggle_round toggle_round
           (visibleOf abc "a") [TOGGLE] [TOGGLE]); reflexivity.
Defined.

(** The double toggle does not give back a partial selection: after
    "alpha" alone was picked, a first toggle over all three items selects
    them all and a second one leaves nothing selected, "alpha" included. *)
Lemma C2_double_toggle_counterexample :
  fst (selectWithEnquirerMulti abc "Select" [alpha_round])
    = Looping ["alpha"] /\
  pickRound abc toggle_round = Some (visibleOf abc "a", [TOGGLE]) /\
  toggle_only [TOGGLE] = true /\
  shown (visibleOf abc "a") "alpha" = true /\
  fst (selectWithEnquirerMulti abc "Select" [alpha_round; toggle_round])
    = Looping ["alpha"; "beta"; "gamma"] /\
  fst (selectWithEnquirerMulti abc "Select"
         [alpha_round; toggle_round; toggle_round])
    = Looping [] /\
  JSSet.has [] "alpha" <> JSSet.has ["alpha"] "alpha".
Proof. repeat split. discriminate. Qed.

Lemma C3_explicit_picks_witness :
  exists s',
    fst (iteration abc "Select" ["alpha"; "gamma"] override_round)
      = Looping s' /\
    s' = fold_left JSSet.add
           (filter (fun v => negb (v =? TOGGLE)%string) [TOGGLE; "beta"])
           (fold_left (fun s e => JSSet.delete s (it e)) (visibleOf abc "a")
              ["alpha"; "gamma"]) /\
    (forall v, JSSet.has s' v = true /\ shown (visibleOf abc "a") v = true <->
               In v (filter (fun v => negb (v =? TOGGLE)%string) [TOGGLE; "beta"])).
Proof.
  apply (C3_explicit_picks_replace_visible "Select" abc ["alpha"; "gamma"]
           override_round
           (visibleOf abc "a") [TOGGLE; "beta"]); reflexivity.
Defined.

(** ** The loop *)

Section Loop.
Context {P : StringPrims}.
Variable message : string.
Import JSSetFacts.

Lemma loop_cons (items : list string) (s : JSSet.t) (r : round)
    (rs : list round) :
  fst (loop items message s (r :: rs)) =
  match fst (iteration items message s r) with
  | Looping s1 => fst (loop items message s1 rs)
  | Resolved idxs => Resolved idxs
  end.
Proof.
  cbn [loop]. destruct (iteration items message s r) as [[s1|idxs] out];
    [|reflexivity].
  cbn [fst]. now destruct (loop items message s1 rs).
Qed.

Lemma loop_app (items : list string) (s : JSSet.t) (rs rs' : list round) :
  fst (loop items message s (rs ++ rs')) =
  match fst (loop items message s rs) with
  | Looping s1 => fst (loop items message s1 rs')
  | Resolved idxs => Resolved idxs
  end.
Proof.
  revert s. induction rs as [|r rs IH]; intros s; [reflexivity|].
  rewrite <- app_comm_cons, !loop_cons.
  destruct (fst (iteration items message s r)); [apply IH | reflexivity].
Qed.

(** The turn that enters [:done]. *)
Lemma iteration_done (items : list string) (s : JSSet.t) (r : round)
    (raw : string) :
  typed r = Answer raw -> trim raw = ":done" ->
  fst (iteration items message s r) =
  Resolved (filter_num (fun i => 0 <=? i)
              (map (fun v => Some (Js.indexOf items v)) s)).
Proof. intros Ht Hd. unfold iteration. now rewrite Ht, Hd. Qed.

(** The turns after which the loop goes on. *)
Lemma iteration_looping (items : list string) (s s' : JSSet.t) (r : round) :
  fst (iteration items message s r) = Looping s' ->
  (is_reset r = true /\ s' = []) \/
  (is_reset r = false /\ pickRound items r = None /\ s' = s) \/
  (is_reset r = false /\
   exists visible result,
     pickRound items r = Some (visible, result) /\
     s' = update visible s result).
Proof.
  unfold iteration, is_reset, pickRound.
  destruct (typed r) as [raw|]; [|discriminate].
  destruct (trim raw =? ":done")%string; [discriminate|].
  destruct (trim raw =? ":reset")%string; cbn [orb fst].
  - intros H. inversion H. now left.
  - destruct (len _ =? 0).
    + intros H. inversion H. right. left.
      destruct (picked r); auto.
    + destruct (picked r) as [result|]; [|discriminate].
      intros H. inversion H. right. right. split; [reflexivity|].
      now eexists _, _.
Qed.

Lemma visibleOf_items (items : list string) (q v : string) :
  shown (visibleOf items q) v = true -> In v items.
Proof. intros H. now apply shown_visibleOf in H. Qed.

Lemma pickRound_visible (items : list string) (r : round)
    (visible : list entry) (result : list string) :
  pickRound items r = Some (visible, result) ->
  exists raw,
    typed r = Answer raw /\ visible = visibleOf items (toLowerCase (trim raw)).
Proof.
  unfold pickRound.
  destruct (typed r) as [raw|]; [|discriminate].
  destruct (picked r); [|discriminate].
  destruct (_ || _); [discriminate|].
  destruct (len _ =? 0); [discriminate|].
  intros H. inversion H. now exists raw.
Qed.

Lemma picks_offered (items : list string) (r : round) (visible : list entry)
    (result : list string) (v : string) :
  pickRound items r = Some (visible, result) ->
  picks_ok items r = true ->
  Js.arr_includes result v && negb (v =? TOGGLE)%string = true ->
  shown visible v = true.
Proof.
  intros Hr Hok Hin. unfold picks_ok in Hok. rewrite Hr in Hok.
  rewrite forallb_forall in Hok.
  apply andb_prop in Hin as [Hin Hnt]. apply existsb_eqb_In in Hin.
  specialize (Hok v Hin).
  unfold presented, Js.arr_includes in Hok. cbn [existsb] in Hok.
  rewrite (eqb_sym_bool TOGGLE v) in Hok.
  destruct (v =? TOGGLE)%string; [discriminate|]. cbn [orb] in Hok.
  apply shown_In. now apply existsb_eqb_In.
Qed.

(** What a pick round can add to the selection state is visible. *)
Lemma update_members (items : list string) (r : round) (visible : list entry)
    (result : list string) (s : JSSet.t) (v : string) :
  pickRound items r = Some (visible, result) ->
  picks_ok items r = true ->
  JSSet.has (update visible s result) v = true ->
  JSSet.has s v = true \/ shown visible v = true.
Proof.
  intros Hr Hok. rewrite has_update.
  destruct (toggle_only result).
  - destruct (forallb _ visible).
    + intros H. apply andb_prop in H. tauto.
    + intros H. now apply orb_prop in H.
  - intros H. apply orb_prop in H as [H|H].
    + apply andb_prop in H. tauto.
    + right. eapply picks_offered; eauto.
Qed.

(** What a pick round does not show keeps its membership. *)
Lemma update_frame (items : list string) (r : round) (visible : list entry)
    (result : list string) (s : JSSet.t) (v : string) :
  pickRound items r = Some (visible, result) ->
  picks_ok items r = true ->
  shown visible v = false ->
  JSSet.has (update visible s result) v = JSSet.has s v.
Proof.
  intros Hr Hok Hs. rewrite has_update, Hs. simpl.
  destruct (toggle_only result).
  - destruct (forallb _ visible); [apply andb_true_r | apply orb_false_r].
  - rewrite andb_true_r.
    destruct (Js.arr_includes result v && negb (v =? TOGGLE)%string) eqn:Hin.
    + rewrite (picks_offered items r visible result v Hr Hok Hin) in Hs.
      discriminate.
    + apply orb_false_r.
Qed.

Lemma iteration_members (items : list string) (s s' : JSSet.t) (r : round) :
  picks_ok items r = true ->
  fst (iteration items message s r) = Looping s' ->
  (forall v, JSSet.has s v = true -> In v items) ->
  forall v, JSSet.has s' v = true -> In v items.
Proof.
  intros Hok Hit Hinv v Hv.
  apply iteration_looping in Hit
    as [[_ ->] | [[_ [_ ->]] | [_ [visible [result [Hr ->]]]]]].
  - discriminate.
  - now apply Hinv.
  - destruct (update_members items r visible result s v Hr Hok Hv) as [H|H].
    + now apply Hinv.
    + apply pickRound_visible in Hr as [raw [_ ->]].
      eapply visibleOf_items; eauto.
Qed.

Lemma loop_members (items : list string) (rs : list round) (s s' : JSSet.t) :
  forallb (picks_ok items) rs = true ->
  fst (loop items message s rs) = Looping s' ->
  (forall v, JSSet.has s v = true -> In v items) ->
  forall v, JSSet.has s' v = true -> In v items.
Proof.
  revert s. induction rs as [|r rs IH]; intros s Hok Hl Hinv.
  - inversion Hl; subst. exact Hinv.
  - cbn [forallb] in Hok. apply andb_prop in Hok as [Hr Hrs].
    rewrite loop_cons in Hl.
    destruct (fst (iteration items message s r)) as [s1|idxs] eqn:Hit;
      [|discriminate].
    eapply IH; eauto. eapply iteration_members; eauto.
Qed.

Lemma iteration_frame (items : list string) (s s' : JSSet.t) (r : round)
    (v : string) :
  picks_ok items r = true -> hides r v = true ->
  fst (iteration items message s r) = Looping s' ->
  JSSet.has s' v = JSSet.has s v.
Proof.
  intros Hok Hh Hit.
  apply iteration_looping in Hit
    as [[Hreset _] | [[_ [_ ->]] | [_ [visible [result [Hr ->]]]]]].
  - unfold hides in Hh. unfold is_reset in Hreset.
    destruct (typed r); [|discriminate]. now rewrite Hreset in Hh.
  - reflexivity.
  - apply (update_frame items r visible result s v Hr Hok).
    destruct (pickRound_visible _ _ _ _ Hr) as [raw [Ht ->]].
    unfold hides in Hh. rewrite Ht in Hh. apply andb_prop in Hh as [_ Hm].
    destruct (shown _ v) eqn:Hs; [|reflexivity].
    apply shown_visibleOf in Hs as [_ Hs]. now rewrite Hs in Hm.
Qed.

Lemma loop_frame (items : list string) (rs : list round) (s s' : JSSet.t)
    (v : string) :
  forallb (picks_ok items) rs = true ->
  forallb (fun r => hides r v) rs = true ->
  fst (loop items message s rs) = Looping s' ->
  JSSet.has s' v = JSSet.has s v.
Proof.
  revert s. induction rs as [|r rs IH]; intros s Hok Hh Hl.
  - now inversion Hl.
  - cbn [forallb] in Hok, Hh.
    apply andb_prop in Hok as [Hr Hrs]. apply andb_prop in Hh as [Hhr Hhrs].
    rewrite loop_cons in Hl.
    destruct (fst (iteration items message s r)) as [s1|idxs] eqn:Hit;
      [|discriminate].
    rewrite (IH s1 Hrs Hhrs Hl). eapply iteration_frame; eauto.
Qed.

End Loop.

Section SelectionState.
Context {P : StringPrims}.
Variable message : string.
Import JSSetFacts.

(** C1: when [:done] is entered, the loop returns, and the indices it
    returns are exactly the positions that [indexOf] finds in the item
    list for the members of the selection state of that moment: each index
    returned holds a selected display string, and in a list without
    repeated display strings every position that holds one is returned.
    (This holds for the empty item list as well.) *)
Theorem C1_done_returns_selected_indices (items : list string)
    (rs : list round) (s : JSSet.t) (r : round) (raw : string) :
  fst (selectWithEnquirerMulti items message rs) = Looping s ->
  typed r = Answer raw ->
  trim raw = ":done" ->
  exists idxs,
    fst (selectWithEnquirerMulti items message (rs ++ [r])) = Resolved idxs /\
    (forall i, In i idxs <->
       exists v, JSSet.has s v = true /\ Js.indexOf items v = i /\ 0 <= i) /\
    (forall i, In i idxs ->
       exists v, Js.at_index items i = Some v /\ JSSet.has s v = true) /\
    (NoDup items ->
     forall i v, Js.at_index items i = Some v -> JSSet.has s v = true ->
                 In i idxs).
Proof.
  intros Hl Ht Hd. unfold selectWithEnquirerMulti in *.
  eexists. split.
  - rewrite loop_app, Hl, loop_cons.
    now rewrite (iteration_done message items s r raw Ht Hd).
  - assert (Hchar : forall i,
      In i (filter_num (fun i => 0 <=? i)
              (map (fun v => Some (Js.indexOf items v)) s)) <->
      exists v, JSSet.has s v = true /\ Js.indexOf items v = i /\ 0 <= i).
    { intros i. rewrite filter_num_In, in_map_iff. split.
      - intros [[v [Hv Hin]] Hpos]. inversion Hv; subst. exists v.
        split; [now apply has_In|]. split; [reflexivity | lia].
      - intros [v [Hv [Hi Hpos]]]. split; [|lia].
        exists v. split; [now rewrite Hi | now apply has_In]. }
    split; [exact Hchar|]. split.
    + intros i Hi. apply Hchar in Hi as [v [Hv [Hi Hpos]]]. exists v.
      split; [|exact Hv]. subst i. apply indexOf_at. now apply indexOf_In.
    + intros Hnd i v Hat Hv. apply Hchar. exists v. split; [exact Hv|].
      unfold Js.at_index in Hat. destruct (Z.ltb_spec i 0); [discriminate|].
      unfold Js.indexOf.
      rewrite (indexOf_from_first items v 0 (Z.to_nat i) Hnd Hat). lia.
Qed.

(** C4: a round leaves alone the membership of every display string that
    its filter does not show; so through any rounds whose filters do not
    show an item (and that are not [:reset]) the item keeps its membership,
    and when the filter of a later round shows it again, the pick prompt of
    that round offers it pre-marked with that membership. *)
Theorem C4_hidden_items_keep_membership (items : list string)
    (s s' : JSSet.t) (rs : list round) (v : string) :
  forallb (picks_ok items) rs = true ->
  forallb (fun r => hides r v) rs = true ->
  fst (loop items message s rs) = Looping s' ->
  JSSet.has s' v = JSSet.has s v /\
  forall r visible result,
    pickRound items r = Some (visible, result) ->
    shown visible v = true ->
    exists msg choices,
      In (MultiSelectPrompt msg choices) (snd (iteration items message s' r)) /\
      In (Choice v v v (Some (JSSet.has s v))) choices.
Proof.
  intros Hok Hh Hl.
  pose proof (loop_frame message items rs s s' v Hok Hh Hl) as Hsame.
  split; [exact Hsame|].
  intros r visible result Hr Hv.
  destruct (iteration_pickRound items message s' r visible result Hr)
    as [_ [msg Hmsg]].
  exists msg, (choicesOf visible s'). split; [exact Hmsg|].
  unfold choicesOf. right. right.
  apply shown_In in Hv. apply in_map_iff in Hv as [e [<- He]].
  rewrite <- Hsame. apply in_map_iff. now exists e.
Qed.

(** C5: in a session whose pick prompts return names they offered, every
    member of the selection state is a display string of the item list,
    at every point; so at [:done] no member resolves to a negative index
    and the result is the index of every member, nothing dropped. *)
Theorem C5_selection_members_are_items (items : list string)
    (rs : list round) (s : JSSet.t) :
  forallb (picks_ok items) rs = true ->
  fst (selectWithEnquirerMulti items message rs) = Looping s ->
  (forall v, JSSet.has s v = true -> In v items) /\
  (forall v, In v (JSSet.toArray s) -> 0 <= Js.indexOf items v) /\
  (forall r raw, typed r = Answer raw -> trim raw = ":done" ->
     fst (selectWithEnquirerMulti items message (rs ++ [r])) =
     Resolved (map (Js.indexOf items) (JSSet.toArray s))).
Proof.
  intros Hok Hl. unfold selectWithEnquirerMulti in *.
  assert (Hinv : forall v, JSSet.has s v = true -> In v items).
  { eapply loop_members; eauto. intros v Hv. discriminate. }
  assert (Hpos : forall v, In v (JSSet.toArray s) -> 0 <= Js.indexOf items v).
  { intros v Hv. apply indexOf_In. apply Hinv. now apply has_In. }
  split; [exact Hinv|]. split; [exact Hpos|].
  intros r raw Ht Hd. rewrite loop_app, Hl, loop_cons.
  rewrite (iteration_done message items s r raw Ht Hd). cbn [loop fst].
  f_equal. unfold JSSet.toArray in *.
  rewrite <- (map_map (Js.indexOf items) Some).
  apply filter_num_all. intros i Hi. apply in_map_iff in Hi as [v [<- Hv]].
  apply Z.leb_le. now apply Hpos.
Qed.

End SelectionState.

(** ** The fuzzy-finder selector *)

(** C10: whatever the subprocess writes, the fuzzy-finder selector
    resolves only indices of the item list; an index is resolved exactly
    when some output line starts with a token that [parseInt] reads as a
    number [n] with [0 <= n - 1 < items.length].  Lines whose token is not
    a number, is zero or negative, or is beyond the list are dropped. *)
Theorem C10_fzf_indices_in_range {P : StringPrims} (w : World)
    (items : list string) (prompt_ : string) (multi : bool) (idxs : list Z) :
  selectWithFzf w items prompt_ multi = Some idxs ->
  (forall i, In i idxs -> 0 <= i < len items) /\
  (forall out i,
     In i (fzfClose items out) <->
     (trim out =? "")%string = false /\
     exists line n,
       In line (Js.split (trim out) nl) /\
       Js.parseInt (nth 0 (Js.split line tab) "") = Some n /\
       i = n - 1 /\ 0 <= i < len items).
Proof.
  intros Hsel.
  assert (Hchar : forall out i,
     In i (fzfClose items out) <->
     (trim out =? "")%string = false /\
     exists line n,
       In line (Js.split (trim out) nl) /\
       Js.parseInt (nth 0 (Js.split line tab) "") = Some n /\
       i = n - 1 /\ 0 <= i < len items).
  { intros out i. unfold fzfClose.
    destruct (trim out =? "")%string.
    - simpl. split; [tauto | intros [H _]; discriminate].
    - rewrite filter_num_In, in_map_iff. split.
      + intros [[line [Hp Hin]] Hr]. split; [reflexivity|].
        destruct (Js.parseInt _) as [n|] eqn:Hn; [|discriminate].
        inversion Hp; subst. exists line, n. repeat split; auto; lia.
      + intros [_ [line [n [Hin [Hn [-> Hr]]]]]]. split; [|lia].
        exists line. now rewrite Hn. }
  split; [|exact Hchar].
  unfold selectWithFzf in Hsel.
  destruct (negb (has w "fzf")); [discriminate|].
  destruct (len items =? 0).
  - inversion Hsel. intros i [].
  - inversion Hsel. intros i Hi. apply Hchar in Hi.
    destruct Hi as [_ [line [n [_ [_ [_ Hr]]]]]]. exact Hr.
Qed.

(** ** The dispatch loop *)

Section Dispatch.
Context {P : StringPrims}.

Lemma dispatch_cons (w : World) (ref : option string) (c : string)
    (rest : list (option string)) (tr : list event) :
  dispatch w ref (Some c :: rest) tr =
  dispatch w ref rest (tr ++ turn_events w ref c tr).
Proof.
  unfold turn_events. simpl. unfold bind, emit, history. simpl.
  rewrite <- !app_assoc. simpl.
  destruct (execFileSync w _); unfold emit, ret; simpl.
  - now rewrite <- app_assoc.
  - reflexivity.
Qed.

Lemma at_index_defined {A : Type} (arr : list A) (i : Z) :
  0 <= i < len arr -> exists c, Js.at_index arr i = Some c.
Proof.
  intros Hi. unfold Js.at_index. destruct (Z.ltb_spec i 0); [lia|].
  destruct (nth_error arr (Z.to_nat i)) as [c|] eqn:Hn; [now exists c|].
  apply nth_error_None in Hn. unfold len in Hi. lia.
Qed.

(** Indices within the list select defined workflows. *)
Lemma chosen_defined (workflows : list string) (wIdxs : list Z) :
  (forall i, In i wIdxs -> 0 <= i < len workflows) ->
  exists ws, map (fun i => Js.at_index workflows i) wIdxs = map Some ws.
Proof.
  induction wIdxs as [|i l IH]; intros H.
  - now exists [].
  - destruct IH as [ws Hws]; [intros j Hj; apply H; now right|].
    destruct (at_index_defined workflows i) as [c Hc]; [apply H; now left|].
    exists (c :: ws). cbn [map]. now rewrite Hc, Hws.
Qed.

Lemma dispatch_trace (w : World) (ref : option string) (ws : list string)
    (tr0 : list event) :
  exists tr',
    dispatch w ref (map Some ws) tr0 = (inl tt, tr0 ++ tr') /\
    runs tr' = map (fun c => (Js.at_index (Js.split c SEP) 1, ref)) ws /\
    (tr' = [] \/ exists p rest, tr' = LogDispatching p ref :: rest) /\
    (forall a p r rest,
       tr' = a ++ GhWorkflowRun p r :: rest ->
       match execFileSync w (tr0 ++ a ++ [GhWorkflowRun p r]) with
       | Some message => exists rest', rest = LogFailed message :: rest'
       | None => forall message rest', rest <> LogFailed message :: rest'
       end).
Proof.
  revert tr0. induction ws as [|c ws IH]; intros tr0.
  - exists []. simpl. unfold ret. rewrite app_nil_r.
    repeat split; auto.
    intros a p r rest H. destruct a; discriminate.
  - destruct (IH (tr0 ++ turn_events w ref c tr0))
      as [tr'' [Hd [Hruns [Hhead Hrep]]]].
    exists (turn_events w ref c tr0 ++ tr'').
    cbn [map]. rewrite dispatch_cons, Hd, <- app_assoc.
    split; [reflexivity|].
    unfold turn_events in *.
    set (path := Js.at_index (Js.split c SEP) 1) in *.
    split; [|split].
    + cbn [app runs].
      destruct (execFileSync w _); cbn [app runs]; now rewrite Hruns.
    + right. cbn [app]. eauto.
    + intros a p r rest Heq. cbn [app] in Heq.
      destruct a as [|x a]; [discriminate|].
      injection Heq as Hx Heq. subst x.
      destruct a as [|y a].
      * injection Heq as Hp Hr Heq. subst p r. cbn [app].
        destruct (execFileSync w (tr0 ++ _)) as [m|].
        -- exists tr''. now rewrite <- Heq.
        -- intros m rest' Hcontra. cbn [app] in Heq. subst rest.
           destruct Hhead as [->|[p' [rest'' ->]]]; discriminate.
      * injection Heq as Hy Heq. subst y.
        specialize (Hrep
          (match execFileSync w (tr0 ++ [LogDispatching path ref;
                                         GhWorkflowRun path ref]) with
           | Some _ => tl a | None => a end) p r rest).
        destruct (execFileSync w (tr0 ++ [LogDispatching path ref;
                                          GhWorkflowRun path ref])) as [m|].
        -- cbn [app] in Heq. destruct a as [|z a]; [discriminate|].
           injection Heq as Hz Heq. subst z. cbn [tl] in Hrep.
           specialize (Hrep Heq).
           repeat rewrite <- app_assoc in Hrep. exact Hrep.
        -- cbn [app] in Heq. specialize (Hrep Heq).
           repeat rewrite <- app_assoc in Hrep. exact Hrep.
Qed.

(** C8: the dispatch loop takes the chosen workflows one after the other
    in their order and always reaches its end: the commands it runs are
    exactly one run-workflow invocation per chosen workflow, in order, with
    the selected ref, whatever invocations fail; a failing invocation is
    followed at once by its report, a successful one by none; nothing is
    run twice and nothing else is run. *)
Theorem C8_dispatch_continues_after_failure (w : World)
    (ref : option string) (ws : list string) (tr0 : list event) :
  exists tr',
    dispatch w ref (map Some ws) tr0 = (inl tt, tr0 ++ tr') /\
    runs tr' = map (fun c => (Js.at_index (Js.split c SEP) 1, ref)) ws /\
    (forall a p r rest,
       tr' = a ++ GhWorkflowRun p r :: rest ->
       match execFileSync w (tr0 ++ a ++ [GhWorkflowRun p r]) with
       | Some message => exists rest', rest = LogFailed message :: rest'
       | None => forall message rest', rest <> LogFailed message :: rest'
       end).
Proof.
  destruct (dispatch_trace w ref ws tr0) as [tr' [Hd [Hruns [_ Hrep]]]].
  exists tr'. auto.
Qed.

End Dispatch.

(** ** Worked sessions *)

Lemma C1_done_returns_selected_indices_witness :
  exists idxs,
    fst (selectWithEnquirerMulti abc "Select"
           ([alpha_round; beta_round] ++ [done_round])) = Resolved idxs /\
    (forall i, In i idxs <->
       exists v, JSSet.has ["alpha"; "beta"] v = true /\
                 Js.indexOf abc v = i /\ 0 <= i) /\
    (forall i, In i idxs ->
       exists v, Js.at_index abc i = Some v /\
                 JSSet.has ["alpha"; "beta"] v = true) /\
    (NoDup abc ->
     forall i v, Js.at_index abc i = Some v ->
                 JSSet.has ["alpha"; "beta"] v = true -> In i idxs).
Proof.
  apply (C1_done_returns_selected_indices "Select" abc
           [alpha_round; beta_round] ["alpha"; "beta"] done_round ":done");
    reflexivity.
Defined.

Lemma C4_hidden_items_keep_membership_witness :
  JSSet.has ["alpha"; "beta"] "alpha" = JSSet.has ["alpha"] "alpha" /\
  forall r visible result,
    pickRound abc r = Some (visible, result) ->
    shown visible "alpha" = true ->
    exists msg choices,
      In (MultiSelectPrompt msg choices)
         (snd (iteration abc "Select" ["alpha"; "beta"] r)) /\
      In (Choice "alpha" "alpha" "alpha" (Some (JSSet.has ["alpha"] "alpha")))
         choices.
Proof.
  apply (C4_hidden_items_keep_membership "Select" abc ["alpha"]
           ["alpha"; "beta"] [beta_round; beta_round] "alpha"); reflexivity.
Defined.

Lemma C5_selection_members_are_items_witness :
  (forall v, JSSet.has ["alpha"; "beta"] v = true -> In v abc) /\
  (forall v, In v (JSSet.toArray ["alpha"; "beta"]) -> 0 <= Js.indexOf abc v) /\
  (forall r raw, typed r = Answer raw -> trim raw = ":done" ->
     fst (selectWithEnquirerMulti abc "Select" ([alpha_round; beta_round] ++ [r]))
     = Resolved (map (Js.indexOf abc) (JSSet.toArray ["alpha"; "beta"]))).
Proof.
  apply (C5_selection_members_are_items "Select" abc
           [alpha_round; beta_round] ["alpha"; "beta"]); reflexivity.
Defined.

Lemma C10_fzf_indices_in_range_witness :
  let items := ["Deploy — .github/workflows/deploy.yml";
                "Test — .github/workflows/test.yml"] in
  (forall i, In i [0] -> 0 <= i < len items) /\
  (forall out i,
     In i (fzfClose items out) <->
     (trim out =? "")%string = false /\
     exists line n,
       In line (Js.split (trim out) nl) /\
       Js.parseInt (nth 0 (Js.split line tab) "") = Some n /\
       i = n - 1 /\ 0 <= i < len items).
Proof.
  apply (C10_fzf_indices_in_range (world_ref_abort (fun _ => None)) _
           "Select workflows" true [0]); reflexivity.
Defined.

(** A display string that occurs twice resolves to its first position. *)
Example repeated_item_resolves_first :
  fst (selectWithEnquirerMulti ["a"; "a"] "Select"
         [toggle_all_round; done_round])
  = Resolved [0].
Proof. reflexivity. Qed.

(** C1, with a display string that occurs twice: in the item list
    ["a"; "a"] with "a" selected, [:done] returns the index 0 alone, though
    the index 1 holds a display string of the selection state as well. *)
Lemma C1_repeated_item_counterexample :
  fst (selectWithEnquirerMulti ["a"; "a"] "Select" [toggle_all_round])
    = Looping ["a"] /\
  fst (selectWithEnquirerMulti ["a"; "a"] "Select"
         ([toggle_all_round] ++ [done_round]))
    = Resolved [0] /\
  Js.at_index ["a"; "a"] 1 = Some "a" /\
  JSSet.has ["a"] "a" = true /\
  ~ In 1 [0].
Proof. repeat split. intros [H|[]]. discriminate. Qed.

(** After a round under the filter "alp" that picked "alpha", a round
    under "bet" leaves "alpha" selected, and the prompt of a third round
    under the empty filter offers it pre-marked. *)
Example selection_persists_across_filters :
  snd (iteration abc "Select" ["alpha"; "beta"] toggle_all_round) =
  [InputPrompt
     "Select — filter (empty = all). Commands: :done (finish), :reset (clear). Current: 2 selected — alpha, beta";
   MultiSelectPrompt
     "Filtered: 3 shown — use space to (un)select, enter to submit"
     [Choice "__TOGGLE__" "Toggle visible (3)" "__TOGGLE__" None;
      Separator;
      Choice "alpha" "alpha" "alpha" (Some true);
      Choice "beta" "beta" "beta" (Some true);
      Choice "gamma" "gamma" "gamma" (Some false)]]
  /\ fst (selectWithEnquirerMulti abc "Select" [alpha_round; beta_round])
     = Looping ["alpha"; "beta"].
Proof. split; reflexivity. Qed.

(** Lines that are dropped and lines that are kept. *)
Example fzfClose_drops :
  fzfClose ["a"; "b"]
    ("2" ++ tab ++ "b" ++ nl ++ "0" ++ tab ++ "x" ++ nl ++ "abc" ++ nl
       ++ "-4" ++ nl ++ "3" ++ tab ++ "c" ++ nl ++ "1" ++ tab ++ "a" ++ nl)%string
  = [1; 0].
Proof. reflexivity. Qed.

(** An interrupt at either prompt of the multi-select loop resolves the
    empty selection. *)
Lemma interrupt_resolves_empty {P : StringPrims} (items : list string)
    (message : string) (s : JSSet.t) (r : round) :
  typed r = Interrupt \/
  (picked r = Interrupt /\
   exists raw, typed r = Answer raw /\ (trim raw =? ":done")%string = false /\
     (trim raw =? ":reset")%string = false /\
     (len (visibleOf items (toLowerCase (trim raw))) =? 0) = false) ->
  fst (iteration items message s r) = Resolved [].
Proof.
  unfold iteration. intros [Ht | [Hp [raw [Ht [Hd [Hr Hv]]]]]]; rewrite Ht.
  - reflexivity.
  - now rewrite Hd, Hr, Hv, Hp.
Qed.

(** An interrupt of the pick prompt ends the session with nothing
    selected and nothing dispatched. *)
Example session_multi_interrupt :
  fst (session world_multi_abort) = inr Returned /\
  console (snd (session world_multi_abort))
  = [LogSelectedRef (Some "main"); ConsoleLog "Nothing selected."].
Proof. split; reflexivity. Qed.

(** The scenario of the specification: two refs, "main" picked; two active
    workflows, both selected by the toggle under the empty filter;
    confirmed; both dispatched on "main". *)
Example session_end_to_end :
  fst (session (world_enquirer [deploy; retired; test] (fun _ => None)))
    = inl tt /\
  console (snd (session (world_enquirer [deploy; retired; test] (fun _ => None))))
  = [LogSelectedRef (Some "main");
     ConsoleLog (nl ++ "Will dispatch:")%string;
     LogWillDispatch (Some "Deploy — .github/workflows/deploy.yml");
     LogWillDispatch (Some "Test — .github/workflows/test.yml");
     LogDispatching (Some ".github/workflows/deploy.yml") (Some "main");
     GhWorkflowRun (Some ".github/workflows/deploy.yml") (Some "main");
     LogDispatching (Some ".github/workflows/test.yml") (Some "main");
     GhWorkflowRun (Some ".github/workflows/test.yml") (Some "main");
     ConsoleLog "Done."].
Proof. split; reflexivity. Qed.

(** The first of two dispatches fails: it is reported and the second runs. *)
Example session_first_dispatch_fails :
  fst (session (world_enquirer [deploy; test] first_fails)) = inl tt /\
  console (snd (session (world_enquirer [deploy; test] first_fails)))
  = [LogSelectedRef (Some "main");
     ConsoleLog (nl ++ "Will dispatch:")%string;
     LogWillDispatch (Some "Deploy — .github/workflows/deploy.yml");
     LogWillDispatch (Some "Test — .github/workflows/test.yml");
     LogDispatching (Some ".github/workflows/deploy.yml") (Some "main");
     GhWorkflowRun (Some ".github/workflows/deploy.yml") (Some "main");
     LogFailed "Command failed: gh workflow run";
     LogDispatching (Some ".github/workflows/test.yml") (Some "main");
     GhWorkflowRun (Some ".github/workflows/test.yml") (Some "main");
     ConsoleLog "Done."].
Proof. split; reflexivity. Qed.

(** C7 (the code at the failing input): the operator interrupts the
    fuzzy-finder ref picker.  The selector resolves the empty list, and
    [runCLI] does not end the session there: it takes the first element of
    the empty list, logs an undefined ref, goes on to list and select the
    workflows and runs the dispatch with the undefined ref, whatever that
    invocation answers.  With the autocomplete prompt instead, the
    interrupt is an exception that nobody catches. *)
Theorem C7_aborted_ref_selection_goes_on :
  (forall exec,
     selectWithFzf (world_ref_abort exec) ["main"; "v1.0"]
       "Select branch/tag" false = Some [] /\
     exists tail,
       session (world_ref_abort exec) =
       (inl tt,
        [LogSelectedRef None;
         ConsoleLog (nl ++ "Will dispatch:")%string;
         LogWillDispatch (Some "Deploy — .github/workflows/deploy.yml");
         ConfirmPrompt "Proceed?";
         LogDispatching (Some ".github/workflows/deploy.yml") None;
         GhWorkflowRun (Some ".github/workflows/deploy.yml") None] ++ tail))
  /\ session world_single_abort
     = (inr Rejected,
        [AutoCompletePrompt "Select branch or tag" ["main"; "v1.0"]]).
Proof.
  split; [|reflexivity].
  intros exec. split; [reflexivity|].
  destruct (exec
    [LogSelectedRef None;
     ConsoleLog (nl ++ "Will dispatch:")%string;
     LogWillDispatch (Some "Deploy — .github/workflows/deploy.yml");
     ConfirmPrompt "Proceed?";
     LogDispatching (Some ".github/workflows/deploy.yml") None;
     GhWorkflowRun (Some ".github/workflows/deploy.yml") None]) as [m|] eqn:He.
  - exists [LogFailed m; ConsoleLog "Done."].
    cbv in He |- *. now rewrite He.
  - exists [ConsoleLog "Done."].
    cbv in He |- *. now rewrite He.
Qed.

(** C9 (the code at the failing input): for a workflow whose name holds
    the separator, the second piece of the display string is a part of the
    name, not the path, and that is what the dispatch runs; for a name
    without it the path is found. *)
Theorem C9_separator_in_name_wrong_path :
  let display := (name nightly ++ SEP ++ path nightly)%string in
  display = "Build — nightly — .github/workflows/build.yml" /\
  Js.at_index (Js.split display SEP) 1 = Some "nightly" /\
  Js.at_index (Js.split display SEP) 1 <> Some (path nightly) /\
  runs (snd (session (world_enquirer [nightly] (fun _ => None))))
    = [(Some "nightly", Some "main")] /\
  Js.at_index (Js.split (name deploy ++ SEP ++ path deploy)%string SEP) 1
  = Some (path deploy).
Proof.
  cbv zeta. split; [reflexivity|]. split; [reflexivity|].
  split; [discriminate|]. split; reflexivity.
Qed.

(** * Further properties of the code *)

(** ** More on strings *)

Lemma append_assoc_str (a b c : string) :
  ((a ++ b) ++ c = a ++ (b ++ c))%string.
Proof. induction a as [|x a IH]; simpl; [reflexivity | now rewrite IH]. Qed.

Lemma append_nil_r_str (a : string) : (a ++ "")%string = a.
Proof. induction a as [|x a IH]; simpl; [reflexivity | now rewrite IH]. Qed.

Lemma length_append_str (a b : string) :
  String.length (a ++ b) = (String.length a + String.length b)%nat.
Proof. induction a as [|x a IH]; simpl; [reflexivity | now rewrite IH]. Qed.

(** ** The filter loop: commands, results, re-submission *)

Section LoopMore.
Context {P : StringPrims}.
Variable message : string.
Import JSSetFacts.

(** The indices that [:done] returns for the selection state [s]. *)
Lemma done_result_range (items : list string) (s : JSSet.t) (i : Z) :
  In i (filter_num (fun i => 0 <=? i)
          (map (fun v => Some (Js.indexOf items v)) s)) ->
  0 <= i < len items.
Proof.
  rewrite filter_num_In, in_map_iff. intros [[v [Hv _]] Hpos].
  inversion Hv; subst. apply Z.leb_le in Hpos.
  apply indexOf_at. now apply indexOf_In.
Qed.

Lemma indexOf_injective (items : list string) (v v' : string) :
  0 <= Js.indexOf items v -> Js.indexOf items v = Js.indexOf items v' -> v = v'.
Proof.
  intros Hpos Heq.
  assert (Hv : In v items) by now apply indexOf_In.
  assert (Hv' : In v' items) by (apply indexOf_In; now rewrite <- Heq).
  destruct (indexOf_at items v Hv) as [_ H1].
  destruct (indexOf_at items v' Hv') as [_ H2].
  rewrite Heq in H1. congruence.
Qed.

Lemma done_result_NoDup (items : list string) (s : JSSet.t) :
  NoDup s ->
  NoDup (filter_num (fun i => 0 <=? i)
           (map (fun v => Some (Js.indexOf items v)) s)).
Proof.
  induction s as [|v s IH]; intros Hnd; cbn [map filter_num]; [constructor|].
  inversion Hnd as [|? ? Hv Hs]; subst.
  destruct (Z.leb_spec 0 (Js.indexOf items v)) as [Hpos|_]; [|now apply IH].
  constructor; [|now apply IH].
  rewrite filter_num_In, in_map_iff. intros [[v' [Hv' Hin]] _].
  inversion Hv'. apply Hv.
  rewrite (indexOf_injective items v v' Hpos); [assumption | congruence].
Qed.

(** The ways a turn returns: the empty selection (an interrupt) or the
    indices of the state at [:done]. *)
Lemma iteration_resolved (items : list string) (s : JSSet.t) (r : round)
    (idxs : list Z) :
  fst (iteration items message s r) = Resolved idxs ->
  idxs = [] \/
  idxs = filter_num (fun i => 0 <=? i)
           (map (fun v => Some (Js.indexOf items v)) s).
Proof.
  unfold iteration. destruct (typed r) as [raw|]; cbn [fst].
  - destruct (trim raw =? ":done")%string; cbn [fst].
    + intros H. inversion H. now right.
    + destruct (trim raw =? ":reset")%string; [discriminate|].
      destruct (len _ =? 0); [discriminate|].
      destruct (picked r); [discriminate|].
      intros H. inversion H. now left.
  - intros H. inversion H. now left.
Qed.

Lemma iteration_NoDup (items : list string) (s s' : JSSet.t) (r : round) :
  fst (iteration items message s r) = Looping s' -> NoDup s -> NoDup s'.
Proof.
  intros Hit Hnd.
  apply iteration_looping in Hit
    as [[_ ->] | [[_ [_ ->]] | [_ [visible [result [_ ->]]]]]].
  - constructor.
  - exact Hnd.
  - now apply NoDup_update.
Qed.

Lemma loop_resolved (items : list string) (rs : list round) (s : JSSet.t)
    (idxs : list Z) :
  fst (loop items message s rs) = Resolved idxs -> NoDup s ->
  NoDup idxs /\ forall i, In i idxs -> 0 <= i < len items.
Proof.
  revert s. induction rs as [|r rs IH]; intros s Hl Hnd; [discriminate|].
  rewrite loop_cons in Hl.
  destruct (fst (iteration items message s r)) as [s1|idxs1] eqn:Hit.
  - apply (IH s1 Hl). eapply iteration_NoDup; eauto.
  - inversion Hl; subst.
    apply iteration_resolved in Hit as [-> | ->].
    + split; [constructor | intros i []].
    + split; [now apply done_result_NoDup | apply done_result_range].
Qed.

(** However the rounds go, and whatever the prompts submit, the indices
    that [selectWithEnquirerMulti] returns are positions of the item list
    and none is returned twice. *)
Theorem multi_result_valid_distinct (items : list string) (rs : list round)
    (idxs : list Z) :
  fst (selectWithEnquirerMulti items message rs) = Resolved idxs ->
  NoDup idxs /\ forall i, In i idxs -> 0 <= i < len items.
Proof.
  intros H. apply (loop_resolved items rs JSSet.empty idxs H). constructor.
Qed.

(** Turns that do not reach the update of the selection state. *)
Lemma idle_rounds (items : list string) (mid : list round) :
  (forall r, In r mid -> pickRound items r = None) ->
  fst (loop items message [] mid) = Looping [] \/
  fst (loop items message [] mid) = Resolved [].
Proof.
  induction mid as [|r mid IH]; intros Hidle; [now left|].
  rewrite loop_cons.
  destruct (fst (iteration items message [] r)) as [s1|idxs] eqn:Hit.
  - assert (s1 = []) as ->.
    { apply iteration_looping in Hit
        as [[_ ->] | [[_ [_ ->]] | [_ [visible [result [Hr _]]]]]]; auto.
      rewrite (Hidle r (or_introl eq_refl)) in Hr. discriminate. }
    apply IH. intros r' Hr'. apply Hidle. now right.
  - right. apply iteration_resolved in Hit as [-> | ->]; reflexivity.
Qed.

(** [:reset] empties the selection state whatever the rounds before did,
    and a [:done] that follows, with no pick round in between, returns the
    empty list. *)
Theorem reset_then_done_returns_nothing (items : list string)
    (rs mid : list round) (s s1 : JSSet.t) (r r' : round) (raw : string) :
  fst (loop items message s rs) = Looping s1 ->
  is_reset r = true ->
  (forall m, In m mid -> pickRound items m = None) ->
  typed r' = Answer raw -> trim raw = ":done" ->
  fst (loop items message s (rs ++ [r])) = Looping [] /\
  fst (loop items message s (rs ++ [r] ++ mid ++ [r'])) = Resolved [].
Proof.
  intros Hl Hreset Hidle Ht Hd.
  assert (Hr : fst (iteration items message s1 r) = Looping []).
  { unfold is_reset in Hreset. unfold iteration.
    destruct (typed r) as [x|]; [|discriminate].
    apply String.eqb_eq in Hreset. now rewrite Hreset. }
  split.
  - now rewrite loop_app, Hl, loop_cons, Hr.
  - rewrite loop_app, Hl. cbn [app]. rewrite loop_cons, Hr, loop_app.
    destruct (idle_rounds items mid Hidle) as [-> | ->]; [|reflexivity].
    rewrite loop_cons. now rewrite (iteration_done message items [] r' raw Ht Hd).
Qed.

(** Submitting a pick prompt as it was presented (the pre-marked items
    and nothing else) leaves the selection state as it was, when no item
    shown carries the name of the toggle. *)
Theorem resubmit_prechecked_is_noop (items : list string) (s : JSSet.t)
    (r : round) (visible : list entry) (result : list string) :
  pickRound items r = Some (visible, result) ->
  result = map it (filter (fun e => JSSet.has s (it e)) visible) ->
  shown visible TOGGLE = false ->
  exists s',
    fst (iteration items message s r) = Looping s' /\
    forall v, JSSet.has s' v = JSSet.has s v.
Proof.
  intros Hr Hres Hnt. exists (update visible s result).
  split; [now apply iteration_pickRound|].
  assert (Hinc : forall v, Js.arr_includes result v
                           = shown visible v && JSSet.has s v).
  { intros v. subst result. unfold Js.arr_includes, shown. clear.
    induction visible as [|e vis IH]; [reflexivity|]. cbn [filter existsb].
    destruct (JSSet.has s (it e)) eqn:He; cbn [map existsb]; rewrite IH.
    - destruct (String.eqb_spec (it e) v) as [<-|_]; cbn [orb andb].
      + now rewrite He.
      + reflexivity.
    - destruct (String.eqb_spec (it e) v) as [<-|_]; cbn [orb andb].
      + rewrite He. now rewrite !andb_false_r.
      + reflexivity. }
  intros v. rewrite has_update.
  assert (Htog : toggle_only result = false).
  { unfold toggle_only. now rewrite Hinc, Hnt. }
  rewrite Htog, Hinc.
  destruct (String.eqb_spec v TOGGLE) as [->|_].
  - rewrite Hnt. cbn [negb andb]. now rewrite andb_true_r, orb_false_r.
  - destruct (shown visible v), (JSSet.has s v); reflexivity.
Qed.

(** Submitting the same explicit picks (not the toggle alone) a second
    time over the same visible subset changes nothing more. *)
Theorem explicit_picks_idempotent (visible : list entry) (s : JSSet.t)
    (result : list string) (v : string) :
  toggle_only result = false ->
  JSSet.has (update visible (update visible s result) result) v
  = JSSet.has (update visible s result) v.
Proof.
  intros Ht. rewrite !has_update, Ht.
  destruct (JSSet.has s v), (shown visible v),
    (Js.arr_includes result v && negb (v =? TOGGLE)%string); reflexivity.
Qed.

(** A query that contains another one shows no item that the other one
    hides: refining the filter only narrows the visible subset. *)
Theorem refined_filter_narrows (items : list string) (q q' : string)
    (e : entry) :
  Js.includes q' q = true ->
  In e (visibleOf items q') -> In e (visibleOf items q).
Proof.
  intros Hq. rewrite !visibleOf_filter, !filter_In.
  intros [He Hm]. split; [exact He|].
  apply includes_substring in Hm as [pre [post Hm]].
  apply includes_substring in Hq as [pre' [post' Hq]].
  apply includes_substring. exists (pre ++ pre')%string, (post' ++ post)%string.
  rewrite Hm, Hq. now rewrite !append_assoc_str.
Qed.

End LoopMore.

(** ** Selecting everything *)

Section SelectEverything.
Context {P : StringPrims}.
Variable message : string.
Import JSSetFacts.

Lemma add_fresh_entries (vis : list entry) (s : JSSet.t) :
  NoDup (s ++ map it vis) ->
  fold_left (fun s e => JSSet.add s (it e)) vis s = s ++ map it vis.
Proof.
  revert s. induction vis as [|e vis IH]; intros s Hnd; cbn [fold_left map].
  - now rewrite app_nil_r.
  - assert (Hfresh : JSSet.has s (it e) = false).
    { destruct (JSSet.has s (it e)) eqn:Hh; [|reflexivity].
      apply has_In in Hh. cbn [map] in Hnd.
      apply NoDup_remove_2 in Hnd. exfalso. apply Hnd.
      apply in_or_app. now left. }
    unfold JSSet.add at 2. rewrite Hfresh.
    rewrite IH; cbn [map] in Hnd; rewrite <- app_assoc; [reflexivity | exact Hnd].
Qed.

Lemma map_indexOf_from (pre l : list string) (k : Z) :
  NoDup (pre ++ l) ->
  map (fun v => Js.indexOf_from (pre ++ l) v k) l
  = mapi_from (fun _ i => i) l (k + len pre).
Proof.
  revert pre. induction l as [|x l IH]; intros pre Hnd; [reflexivity|].
  cbn [map mapi_from]. f_equal.
  - rewrite (indexOf_from_first (pre ++ x :: l) x k (List.length pre) Hnd).
    + reflexivity.
    + rewrite nth_error_app2 by lia. now rewrite Nat.sub_diag.
  - assert (Heq : pre ++ x :: l = (pre ++ [x]) ++ l) by now rewrite <- app_assoc.
    rewrite Heq in *. rewrite (IH (pre ++ [x]) Hnd).
    f_equal. unfold len. rewrite length_app. simpl. lia.
Qed.

Lemma map_indexOf_all (items : list string) :
  NoDup items -> map (Js.indexOf items) items = indices items.
Proof.
  intros Hnd. unfold indices, mapi.
  exact (map_indexOf_from [] items 0 Hnd).
Qed.

Lemma indices_nonneg {A : Type} (l : list A) (k : Z) :
  0 <= k -> forall i, In i (mapi_from (fun _ i => i) l k) -> 0 <= i.
Proof.
  revert k. induction l as [|x l IH]; intros k Hk i; cbn [mapi_from].
  - intros [].
  - intros [<-|Hi]; [exact Hk | apply (IH (k + 1)); [lia | exact Hi]].
Qed.

(** From the empty selection, the toggle alone under the empty filter
    and then [:done] return every index of the item list, in order (for
    a list without repeated display strings). *)
Theorem toggle_all_then_done_selects_everything (items : list string)
    (r r' : round) (raw raw' : string) (result : list string) :
  NoDup items ->
  toLowerCase "" = "" ->
  typed r = Answer raw -> trim raw = "" ->
  picked r = Answer result -> toggle_only result = true ->
  typed r' = Answer raw' -> trim raw' = ":done" ->
  fst (selectWithEnquirerMulti items message [r; r']) = Resolved (indices items).
Proof.
  intros Hnd Hlow Ht Hraw Hp Htog Ht' Hd.
  unfold selectWithEnquirerMulti. rewrite loop_cons.
  assert (Hit : fst (iteration items message JSSet.empty r) = Looping items).
  { unfold iteration. rewrite Ht, Hraw, Hlow, Hp. cbn [String.eqb].
    unfold visibleOf. cbn [String.eqb].
    destruct items as [|x items]; [reflexivity|].
    cbn [fst]. destruct (len _ =? 0) eqn:Hlen.
    { unfold mapi, len in Hlen. cbn in Hlen. discriminate. }
    cbn [fst]. f_equal. rewrite (update_toggle_only _ _ _ Htog).
    unfold mapi. cbn [mapi_from forallb JSSet.has JSSet.empty existsb andb it mk_entry].
    change (mk_entry x 0 :: mapi_from mk_entry items (0 + 1))
      with (mapi_from mk_entry (x :: items) 0).
    rewrite add_fresh_entries; rewrite map_it_mapi_from; [reflexivity | exact Hnd]. }
  rewrite Hit, loop_cons.
  rewrite (iteration_done message items items r' raw' Ht' Hd).
  f_equal. rewrite <- (map_map (Js.indexOf items) Some).
  rewrite (map_indexOf_all items Hnd).
  apply filter_num_all. intros i Hi. apply Z.leb_le.
  now apply (indices_nonneg items 0).
Qed.

End SelectEverything.

(** ** The session as a whole *)

Section SessionFacts.
Context {P : StringPrims}.

Lemma emit_all_run (es tr : list event) : emit_all es tr = (inl tt, tr ++ es).
Proof.
  revert tr. induction es as [|e es IH]; intros tr; cbn [emit_all].
  - unfold ret. now rewrite app_nil_r.
  - unfold bind, emit. rewrite IH. now rewrite <- app_assoc.
Qed.

Lemma runs_app (a b : list event) : runs (a ++ b) = runs a ++ runs b.
Proof.
  induction a as [|e a IH]; [reflexivity|].
  destruct e; cbn [app runs]; rewrite IH; reflexivity.
Qed.

Lemma fzfClose_range (items : list string) (out : string) (i : Z) :
  In i (fzfClose items out) -> 0 <= i < len items.
Proof.
  unfold fzfClose. destruct (trim out =? "")%string; [intros []|].
  rewrite filter_num_In. intros [_ H]. lia.
Qed.

Lemma selectWithFzf_range (w : World) (items : list string) (pr : string)
    (multi : bool) (l : list Z) :
  selectWithFzf w items pr multi = Some l ->
  forall i, In i l -> 0 <= i < len items.
Proof.
  unfold selectWithFzf. destruct (negb _); [discriminate|].
  destruct (len items =? 0); intros H; inversion H; subst.
  - intros i [].
  - intros i. apply fzfClose_range.
Qed.

(** The filter loop runs no command. *)
Lemma iteration_quiet (items : list string) (message : string) (s : JSSet.t)
    (r : round) :
  runs (snd (iteration items message s r)) = [].
Proof.
  unfold iteration. destruct (typed r); [|reflexivity].
  destruct (_ =? ":done")%string; [reflexivity|].
  destruct (_ =? ":reset")%string; [reflexivity|].
  destruct (len _ =? 0); [reflexivity|].
  destruct (picked r); reflexivity.
Qed.

Lemma loop_quiet (items : list string) (message : string) (rs : list round)
    (s : JSSet.t) :
  runs (snd (loop items message s rs)) = [].
Proof.
  revert s. induction rs as [|r rs IH]; intros s; [reflexivity|].
  cbn [loop]. pose proof (iteration_quiet items message s r) as Hq.
  destruct (iteration items message s r) as [[s1|idxs] out]; cbn [snd] in *;
    [|exact Hq].
  specialize (IH s1). destruct (loop items message s1 rs) as [st out'].
  cbn [snd] in *. now rewrite runs_app, Hq, IH.
Qed.

Lemma runs_will_dispatch (l : list (option string)) :
  runs (map LogWillDispatch l) = [].
Proof. induction l; [reflexivity | exact IHl]. Qed.

(** Indices within the list select workflows of the list. *)
Lemma chosen_within (workflows : list string) (wIdxs : list Z) :
  (forall i, In i wIdxs -> 0 <= i < len workflows) ->
  exists ws,
    map (fun i => Js.at_index workflows i) wIdxs = map Some ws /\
    incl ws workflows /\ List.length ws = List.length wIdxs.
Proof.
  induction wIdxs as [|i l IH]; intros H.
  - exists []. repeat split. intros x [].
  - destruct IH as [ws [Hws [Hincl Hlen]]]; [intros j Hj; apply H; now right|].
    destruct (at_index_defined workflows i) as [c Hc]; [apply H; now left|].
    exists (c :: ws). cbn [map]. rewrite Hc, Hws. repeat split.
    + intros x [<-|Hx]; [|now apply Hincl].
      unfold Js.at_index in Hc. destruct (i <? 0); [discriminate|].
      eapply nth_error_In; eauto.
    + cbn. now rewrite Hlen.
Qed.

Lemma at_index_In {A : Type} (arr : list A) (i : Z) (x : A) :
  Js.at_index arr i = Some x -> In x arr.
Proof.
  unfold Js.at_index. destruct (i <? 0); [discriminate|].
  apply nth_error_In.
Qed.

(** A label of [workflowsOf] comes from an active record. *)
Lemma workflowsOf_In (data : list workflow) (c : string) :
  In c (workflowsOf data) ->
  exists x, In x data /\ state x = "active" /\
            c = (name x ++ SEP ++ path x)%string.
Proof.
  unfold workflowsOf. rewrite in_map_iff. intros [x [<- Hx]].
  apply filter_In in Hx as [Hx Hs]. apply String.eqb_eq in Hs.
  now exists x.
Qed.

Ltac early_leaf H :=
  cbn in H; inversion H; subst; clear H;
  left; eexists; split; [reflexivity|]; split;
  [ rewrite ?runs_app, ?runs_will_dispatch;
    repeat match goal with H' : runs _ = [] |- _ => rewrite H' end;
    try reflexivity
  | split; [ intros code Hcode; inversion Hcode; eauto
           | intros Hrej; try (inversion Hrej; fail); auto ] ].

(** The two ways a session goes: it ends early having run nothing, or it
    was confirmed and ran the dispatch loop to its end. *)
Lemma session_shape (w : World) (res : unit + fin) (tr : list event) :
  session w = (res, tr) ->
  (exists f, res = inr f /\ runs tr = [] /\
     (forall c, f = Exited c ->
        c = 1 /\ (has w "git" = false \/ has w "gh" = false) /\
        exists m, tr = [ConsoleError m]) /\
     (f = Rejected -> autoComplete w = Interrupt \/ confirmed w = Interrupt)) \/
  (res = inl tt /\ has w "git" = true /\ has w "gh" = true /\
   confirmed w = Answer true /\
   exists data ws ref,
     JSON_parse w (raw_list w) = Some data /\
     ws <> [] /\ incl ws (workflowsOf data) /\
     (ref = None \/ exists x, ref = Some x /\ In x (refsOf w)) /\
     runs tr = map (fun c => (Js.at_index (Js.split c SEP) 1, ref)) ws).
Proof.
  unfold session, runCLI, raw_list.
  change (filter _ (map trim _)) with (refsOf w).
  intros H.
  destruct (has w "git"); cbn [negb] in H; [|early_leaf H].
  destruct (has w "gh"); cbn [negb] in H; [|early_leaf H].
  destruct (len (refsOf w) =? 0); [early_leaf H|].
  unfold bind at 1 in H.
  set (pick := match selectWithFzf w (refsOf w) "Select branch/tag" false with
               | Some refIdxs => ret (Js.at_index refIdxs 0)
               | None => _ end) in H.
  assert (Hpick : exists pre,
            runs pre = [] /\
            ((exists a, pick [] = (inl a, pre)) \/
             (pick [] = (inr Rejected, pre) /\ autoComplete w = Interrupt))).
  { unfold pick. destruct (selectWithFzf _ _ _ _).
    - exists []. split; [reflexivity|]. left. eexists. reflexivity.
    - exists [AutoCompletePrompt "Select branch or tag" (refsOf w)].
      split; [reflexivity|].
      unfold selectWithEnquirerSingle, bind, emit, ret, stop. cbn.
      destruct (autoComplete w); [left; eexists; reflexivity | right; auto]. }
  clearbody pick. destruct Hpick as [pre [Hpre [[a Ha] | [Ha Hint]]]];
    rewrite Ha in H; [|early_leaf H].
  set (ref := match a with Some i => Js.at_index (refsOf w) i | None => None end)
    in H.
  assert (Href : ref = None \/ exists x, ref = Some x /\ In x (refsOf w)).
  { unfold ref. destruct a as [i|]; [|now left].
    destruct (Js.at_index (refsOf w) i) as [x|] eqn:Hx; [|now left].
    right. exists x. split; [reflexivity|]. eapply at_index_In; eauto. }
  clearbody ref. unfold bind at 1 in H. unfold emit at 1 in H.
  destruct (JSON_parse w _) as [data|] eqn:Hparse; [|early_leaf H].
  change (map _ (filter _ data)) with (workflowsOf data) in H.
  destruct (len (workflowsOf data) =? 0); [early_leaf H|].
  unfold bind at 1 in H.
  set (tr0 := pre ++ [LogSelectedRef ref]) in H.
  assert (Htr0 : runs tr0 = []) by (unfold tr0; now rewrite runs_app, Hpre).
  clearbody tr0.
  set (pick2 := match selectWithFzf w (workflowsOf data) "Select workflows" true with
                | Some l => ret l
                | None => _ end) in H.
  assert (Hpick2 : exists out,
            runs out = [] /\
            ((exists l, pick2 tr0 = (inl l, tr0 ++ out) /\
                        forall i, In i l -> 0 <= i < len (workflowsOf data)) \/
             pick2 tr0 = (inr Waiting, tr0 ++ out))).
  { unfold pick2.
    destruct (selectWithFzf _ _ _ _) as [l|] eqn:Hfzf.
    - exists []. split; [reflexivity|]. left. exists l. unfold ret.
      rewrite app_nil_r. split; [reflexivity|].
      now apply (selectWithFzf_range w _ _ _ l Hfzf).
    - pose proof (loop_quiet (workflowsOf data) "Select workflows to dispatch"
                    (rounds w) JSSet.empty) as Hq.
      pose proof (fun idxs => loop_resolved "Select workflows to dispatch"
                    (workflowsOf data) (rounds w) JSSet.empty idxs) as Hres.
      unfold selectWithEnquirerMulti.
      destruct (loop _ _ _ _) as [st out]. cbn [fst snd] in *.
      exists out. split; [exact Hq|].
      unfold bind. rewrite emit_all_run.
      destruct st as [s|idxs]; [now right|].
      left. exists idxs. split; [reflexivity|].
      apply (Hres idxs eq_refl). constructor. }
  clearbody pick2.
  destruct Hpick2 as [out [Hout [[l [Hl Hrange]] | Hl]]]; rewrite Hl in H;
    [|early_leaf H].
  destruct (len l =? 0) eqn:Hlen; [early_leaf H|].
  destruct (chosen_within (workflowsOf data) l Hrange) as [ws [Hws [Hincl Hlenws]]].
  rewrite Hws in H.
  unfold bind at 1 in H. unfold emit at 1 in H.
  unfold bind at 1 in H. rewrite emit_all_run in H.
  unfold bind at 1 in H. unfold confirm, bind, emit in H.
  set (tr1 := (((tr0 ++ out) ++ _) ++ _) ++ _) in H.
  assert (Htr1 : runs tr1 = []).
  { unfold tr1. now rewrite !runs_app, runs_will_dispatch, Htr0, Hout. }
  clearbody tr1.
  destruct (confirmed w) as [[|]|]; [|early_leaf H|early_leaf H].
  unfold ret in H. cbn [negb] in H.
  destruct (dispatch_trace w ref ws tr1) as [tr' [Hd [Hruns _]]].
  rewrite Hd in H. inversion H; subst. clear H.
  right. repeat split; auto.
  exists data, ws, ref. repeat split; auto.
  - intros ->. destruct l; [discriminate Hlen | discriminate Hlenws].
  - now rewrite !runs_app, Htr1, Hruns, app_nil_r.
Qed.

(** [runCLI] exits with a status exactly when git or gh is not there; the
    status is 1, and all it did was print one error: no prompt was shown
    and no command run. *)
Theorem exit_status_iff_tool_missing (w : World) :
  (has w "git" = false \/ has w "gh" = false) <->
  exists c, fst (session w) = inr (Exited c) /\ c = 1 /\
            exists m, snd (session w) = [ConsoleError m].
Proof.
  split.
  - intros Hmiss. exists 1. unfold session, runCLI.
    destruct (has w "git"); cbn [negb].
    + destruct Hmiss as [Hg|Hg]; [discriminate|]. rewrite Hg. cbn. eauto.
    + cbn. eauto.
  - intros [c [Hres _]].
    destruct (session w) as [res tr] eqn:Hs. cbn [fst] in Hres. subst res.
    destruct (session_shape w _ _ Hs) as [[f [Hf [_ [Hex _]]]] | [Hinl _]];
      [|discriminate].
    inversion Hf; subst. now destruct (Hex c eq_refl) as [_ [Hm _]].
Qed.

(** Nothing is dispatched unless the workflow list parsed and the
    operator confirmed: a session that runs a command had both, and ends
    normally. *)
Theorem dispatch_needs_confirmation (w : World) :
  runs (snd (session w)) <> [] ->
  confirmed w = Answer true /\
  (exists data, JSON_parse w (raw_list w) = Some data) /\
  fst (session w) = inl tt.
Proof.
  intros Hruns. destruct (session w) as [res tr] eqn:Hs. cbn [fst snd] in *.
  destruct (session_shape w _ _ Hs)
    as [[f [_ [Hq _]]] | [Hres [_ [_ [Hc [data [ws [ref [Hp _]]]]]]]]].
  - contradiction.
  - split; [exact Hc|]. split; [now exists data | exact Hres].
Qed.

(** Every command of a session is the run of a workflow that the parsed
    list gives as active, with the path taken from its label, and all of
    them carry one and the same ref, which is undefined or one of the refs
    that git listed. *)
Theorem dispatches_active_workflows_on_one_ref (w : World) :
  exists ref,
    (ref = None \/ exists x, ref = Some x /\ In x (refsOf w)) /\
    forall p r, In (p, r) (runs (snd (session w))) ->
      r = ref /\
      exists data x,
        JSON_parse w (raw_list w) = Some data /\
        In x data /\ state x = "active" /\
        p = Js.at_index (Js.split (name x ++ SEP ++ path x)%string SEP) 1.
Proof.
  destruct (session w) as [res tr] eqn:Hs. cbn [snd].
  destruct (session_shape w _ _ Hs)
    as [[f [_ [Hq _]]] | [_ [_ [_ [_ [data [ws [ref [Hp [_ [Hincl [Href Hruns]]]]]]]]]]]].
  - exists None. split; [now left|]. rewrite Hq. intros p r [].
  - exists ref. split; [exact Href|]. rewrite Hruns. intros p r Hin.
    apply in_map_iff in Hin as [c [Hc Hin]]. inversion Hc; subst.
    split; [reflexivity|].
    destruct (workflowsOf_In data c (Hincl c Hin)) as [x [Hx [Hst ->]]].
    now exists data, x.
Qed.

End SessionFacts.

(** ** Splitting on a separator *)

Lemma prefix_true_includes (sep t : string) :
  String.prefix sep t = true -> Js.includes t sep = true.
Proof.
  intros H. apply prefix_app in H as [post ->].
  apply includes_substring. now exists "", post.
Qed.

Lemma includes_suffix (p t sep : string) :
  Js.includes (p ++ t) sep = false -> Js.includes t sep = false.
Proof.
  intros H. destruct (Js.includes t sep) eqn:Ht; [|reflexivity].
  apply includes_substring in Ht as [pre [post ->]].
  assert (Js.includes (p ++ pre ++ sep ++ post) sep = true).
  { apply includes_substring. exists (p ++ pre)%string, post.
    now rewrite append_assoc_str. }
  congruence.
Qed.

Lemma includes_prefix_part (t p sep : string) :
  Js.includes (t ++ p) sep = false -> Js.includes t sep = false.
Proof.
  intros H. destruct (Js.includes t sep) eqn:Ht; [|reflexivity].
  apply includes_substring in Ht as [pre [post ->]].
  assert (Js.includes ((pre ++ sep ++ post) ++ p) sep = true).
  { apply includes_substring. exists pre, (post ++ p)%string.
    now rewrite !append_assoc_str. }
  congruence.
Qed.

(** A prefix test looks at no more bytes than the prefix has. *)
Lemma prefix_app_long (sep x y : string) :
  (String.length sep <= String.length x)%nat ->
  String.prefix sep (x ++ y) = String.prefix sep x.
Proof.
  revert x. induction sep as [|c sep IH]; intros x Hlen.
  - destruct x; destruct y; reflexivity.
  - destruct x as [|d x]; [simpl in Hlen; lia|].
    simpl. destruct (Ascii.ascii_dec c d); [|reflexivity].
    apply IH. simpl in Hlen. lia.
Qed.

Lemma split_go_cons (sep cur : string) (c : ascii) (s : string) :
  Js.split_go sep cur (String c s) 0 =
  if String.prefix sep (String c s)
  then cur :: Js.split_go sep "" s (String.length sep - 1)
  else Js.split_go sep (cur ++ String c "") s 0.
Proof. reflexivity. Qed.

Lemma split_go_skip (sep cur a b : string) :
  Js.split_go sep cur (a ++ b) (String.length a) = Js.split_go sep cur b 0.
Proof.
  induction a as [|c a IH]; [reflexivity|]. exact IH.
Qed.

(** A string without the separator is one piece. *)
Lemma split_go_none (sep cur s : string) :
  Js.includes s sep = false ->
  Js.split_go sep cur s 0 = [(cur ++ s)%string].
Proof.
  revert cur. induction s as [|c s IH]; intros cur Hno.
  - cbn. now rewrite append_nil_r_str.
  - rewrite split_go_cons.
    destruct (String.prefix sep (String c s)) eqn:Hp.
    + apply prefix_true_includes in Hp. congruence.
    + rewrite IH.
      * now rewrite append_assoc_str.
      * now apply (includes_suffix (String c "") s sep).
Qed.

(** The first piece: up to the first separator, when the separator does
    not begin anywhere before it. *)
Lemma split_go_first (sep init : string) (l : ascii) (cur a b : string) :
  sep = (init ++ String l "")%string ->
  Js.includes (a ++ init) sep = false ->
  Js.split_go sep cur (a ++ sep ++ b) 0
  = (cur ++ a)%string :: Js.split_go sep "" b 0.
Proof.
  intros Hsep. revert cur. induction a as [|c a IH]; intros cur Hno.
  - cbn [String.append]. rewrite append_nil_r_str.
    destruct sep as [|c0 sep'] eqn:Hs.
    { destruct init; discriminate. }
    cbn [String.append]. rewrite split_go_cons.
    assert (Hp : String.prefix (String c0 sep') (String c0 (sep' ++ b)) = true).
    { apply prefix_app. now exists b. }
    rewrite Hp. f_equal.
    replace (String.length (String c0 sep') - 1)%nat with (String.length sep')
      by (simpl; lia).
    apply split_go_skip.
  - cbn [String.append]. rewrite split_go_cons.
    assert (Hp : String.prefix sep (String c (a ++ sep ++ b)) = false).
    { destruct (String.prefix sep (String c (a ++ init))) eqn:Hp1.
      - apply prefix_true_includes in Hp1. cbn [String.append] in Hno. congruence.
      - rewrite <- Hp1.
        replace (String c (a ++ sep ++ b))
          with ((String c (a ++ init)) ++ (String l "" ++ b))%string.
        + apply prefix_app_long. rewrite Hsep. simpl.
          rewrite !length_append_str. simpl. lia.
        + rewrite Hsep. cbn [String.append]. f_equal.
          now rewrite !append_assoc_str. }
    rewrite Hp, IH.
    + now rewrite append_assoc_str.
    + now apply (includes_suffix (String c "") (a ++ init) sep).
Qed.

Lemma split_first (sep init : string) (l : ascii) (a b : string) :
  sep = (init ++ String l "")%string ->
  Js.includes (a ++ init) sep = false ->
  Js.split (a ++ sep ++ b) sep = a :: Js.split b sep.
Proof. intros Hsep Hno. unfold Js.split. now rewrite (split_go_first sep init l). Qed.

Lemma split_none (sep s : string) :
  Js.includes s sep = false -> Js.split s sep = [s].
Proof. intros Hno. unfold Js.split. now rewrite split_go_none. Qed.

(** ** The path of a workflow label *)

(** For a workflow whose name does not let the separator begin before
    its end (the name followed by " —" does not contain " — ") and whose
    path does not contain it, the dispatch step recovers the path from the
    label, and the dispatch loop runs each such workflow by its path. *)
Theorem path_recovered_from_label {P : StringPrims} (w : World)
    (ref : option string) (xs : list workflow) (tr0 : list event) :
  (forall x, In x xs ->
     Js.includes (name x ++ " —") SEP = false /\
     Js.includes (path x) SEP = false) ->
  (forall x, In x xs ->
     Js.at_index (Js.split (name x ++ SEP ++ path x) SEP) 1 = Some (path x)) /\
  runs (snd (dispatch w ref
               (map (fun x => Some (name x ++ SEP ++ path x)%string) xs) tr0))
  = runs tr0 ++ map (fun x => (Some (path x), ref)) xs.
Proof.
  intros Hok.
  assert (Hpath : forall x, In x xs ->
     Js.at_index (Js.split (name x ++ SEP ++ path x) SEP) 1 = Some (path x)).
  { intros x Hx. destruct (Hok x Hx) as [Hn Hp].
    rewrite (split_first SEP " —" " " (name x) (path x) eq_refl Hn).
    now rewrite (split_none SEP (path x) Hp). }
  split; [exact Hpath|].
  rewrite <- (map_map (fun x => (name x ++ SEP ++ path x)%string) Some).
  destruct (dispatch_trace w ref
              (map (fun x => (name x ++ SEP ++ path x)%string) xs) tr0)
    as [tr' [Hd [Hruns _]]].
  rewrite Hd. cbn [snd]. rewrite runs_app, Hruns, map_map. f_equal.
  apply map_ext_in. intros x Hx. now rewrite (Hpath x Hx).
Qed.

(** ** Lines, tokens and numbers (with the ASCII primitives) *)

Lemma chars_app (a b : string) :
  list_ascii_of_string (a ++ b)
  = list_ascii_of_string a ++ list_ascii_of_string b.
Proof. induction a as [|c a IH]; simpl; [reflexivity | now rewrite IH]. Qed.

(** For a separator of one byte, [includes] is membership of the byte. *)
Lemma includes_char (s : string) (c : ascii) :
  Js.includes s (String c "") = true <-> In c (list_ascii_of_string s).
Proof.
  rewrite includes_substring. split.
  - intros [pre [post ->]]. rewrite chars_app. apply in_or_app. right. now left.
  - induction s as [|d s IH]; [intros []|]. simpl. intros [->|Hin].
    + now exists "", s.
    + destruct (IH Hin) as [pre [post ->]]. now exists (String d pre), post.
Qed.

Lemma no_char_app (a b : string) (c : ascii) :
  Js.includes a (String c "") = false ->
  Js.includes b (String c "") = false ->
  Js.includes (a ++ b) (String c "") = false.
Proof.
  intros Ha Hb. destruct (Js.includes (a ++ b) _) eqn:H; [|reflexivity].
  apply includes_char in H. rewrite chars_app in H.
  apply in_app_or in H as [H|H]; apply includes_char in H; congruence.
Qed.

(** The records of [lines_out] are its pieces, with an empty piece after
    the last line break. *)
Lemma split_lines_out (records : list string) :
  (forall r, In r records -> Js.includes r nl = false) ->
  Js.split (lines_out records) nl = records ++ [""].
Proof.
  induction records as [|r rest IH]; intros Hno; [reflexivity|].
  cbn [lines_out app].
  rewrite (split_first nl "" "010" r (lines_out rest) eq_refl).
  - f_equal. apply IH. intros x Hx. apply Hno. now right.
  - rewrite append_nil_r_str. apply Hno. now left.
Qed.

(** Refs that git prints one per line, each without surrounding white
    space, are read back as they are, in order; the line break after the
    last one adds no ref. *)
Theorem refs_read_back {P : StringPrims} (w : World) (rs : list string) :
  trim "" = "" ->
  (forall r, In r rs -> trim r = r /\ r <> "" /\ Js.includes r nl = false) ->
  run w "git" ["for-each-ref"; "--format=%(refname:short)";
               "refs/heads"; "refs/tags"] = lines_out rs ->
  refsOf w = rs.
Proof.
  intros Hempty Hclean Hout. unfold refsOf. rewrite Hout.
  rewrite split_lines_out by (intros r Hr; now apply Hclean).
  rewrite map_app, filter_app. cbn [map filter]. rewrite Hempty.
  cbn [String.eqb negb]. rewrite app_nil_r. clear Hout.
  induction rs as [|r rs IH]; [reflexivity|]. cbn [map filter].
  destruct (Hclean r (or_introl eq_refl)) as [Ht [Hne _]]. rewrite Ht.
  destruct (String.eqb_spec r "") as [->|_]; [congruence|]. cbn [negb].
  f_equal. apply IH. intros x Hx. apply Hclean. now right.
Qed.

(** White space at the end. *)
Lemma trimEnd_cons_nonempty (c : ascii) (t : string) :
  (Js.trimEnd t =? "")%string = false ->
  Js.trimEnd (String c t) = String c (Js.trimEnd t).
Proof. intros H. cbn [Js.trimEnd]. now rewrite H, andb_false_r. Qed.

Lemma trimEnd_app (a b : string) :
  Js.trimEnd (a ++ b) =
  if (Js.trimEnd b =? "")%string then Js.trimEnd a else (a ++ Js.trimEnd b)%string.
Proof.
  induction a as [|c a IH]; cbn [String.append].
  - destruct (Js.trimEnd b) eqn:Hb; reflexivity.
  - cbn [Js.trimEnd]. rewrite IH.
    destruct (Js.trimEnd b =? "")%string eqn:Hb; [reflexivity|].
    assert (Hne : ((a ++ Js.trimEnd b) =? "")%string = false).
    { destruct a; [exact Hb | reflexivity]. }
    now rewrite Hne, andb_false_r.
Qed.

Lemma trimEnd_chars (s : string) (c : ascii) :
  In c (list_ascii_of_string (Js.trimEnd s)) -> In c (list_ascii_of_string s).
Proof.
  induction s as [|d s IH]; [intros []|]. cbn [Js.trimEnd].
  destruct (Js.isSpace d && _); [intros []|].
  simpl. intros [->|H]; [now left | right; now apply IH].
Qed.

Lemma trimEnd_no_space (s : string) :
  Forall (fun c => Js.isSpace c = false) (list_ascii_of_string s) ->
  Js.trimEnd s = s.
Proof.
  induction s as [|c s IH]; [reflexivity|]. simpl. intros H.
  inversion H as [|? ? Hc Hs]; subst. now rewrite Hc, (IH Hs).
Qed.

(** The decimal numerals. *)

Lemma digits_acc_pos (d : Decimal.uint) (a : positive) :
  Js.digits (NilEmpty.string_of_uint d) (Some (Zpos a))
  = Some (Zpos (Pos.of_uint_acc d a)).
Proof.
  revert a. induction d as [|d IH|d IH|d IH|d IH|d IH|d IH|d IH|d IH|d IH|d IH];
    intros a; [reflexivity|..];
    cbn [NilEmpty.string_of_uint Js.digits Pos.of_uint_acc];
    change (Js.digit _) with (Some 0) ||
    change (Js.digit _) with (Some 1) ||
    change (Js.digit _) with (Some 2) ||
    change (Js.digit _) with (Some 3) ||
    change (Js.digit _) with (Some 4) ||
    change (Js.digit _) with (Some 5) ||
    change (Js.digit _) with (Some 6) ||
    change (Js.digit _) with (Some 7) ||
    change (Js.digit _) with (Some 8) ||
    change (Js.digit _) with (Some 9);
    cbv iota; rewrite <- IH; do 2 f_equal; lia.
Qed.

Lemma digits_acc_zero (d : Decimal.uint) :
  Js.digits (NilEmpty.string_of_uint d) (Some 0) = Some (Z.of_N (Pos.of_uint d)).
Proof.
  induction d as [|d IH|d IH|d IH|d IH|d IH|d IH|d IH|d IH|d IH|d IH];
    [reflexivity | exact IH | ..];
    cbn [NilEmpty.string_of_uint Js.digits Pos.of_uint];
    apply (digits_acc_pos d).
Qed.

Lemma digits_from_none (d : Decimal.uint) :
  d <> Decimal.Nil ->
  Js.digits (NilEmpty.string_of_uint d) None = Some (Z.of_N (Pos.of_uint d)).
Proof.
  destruct d; [congruence | intros _ ..];
    first [ exact (digits_acc_zero d) | apply (digits_acc_pos d) ].
Qed.

Lemma to_uint_not_nil (n : N) : N.to_uint n <> Decimal.Nil.
Proof.
  destruct n as [|p]; [discriminate|].
  intros H. pose proof (DecimalN.Unsigned.of_to (Npos p)) as Hof.
  rewrite H in Hof. discriminate.
Qed.

Lemma numeral_chars (d : Decimal.uint) :
  Forall (fun c => digit_char c = true)
    (list_ascii_of_string (NilEmpty.string_of_uint d)).
Proof. induction d; simpl; constructor; auto. Qed.

Lemma decimal_chars (n : Z) :
  Forall (fun c => digit_char c = true) (list_ascii_of_string (decimal n)).
Proof. apply numeral_chars. Qed.

Lemma decimal_starts (n : Z) :
  exists c t, decimal n = String c t /\ digit_char c = true.
Proof.
  unfold decimal. pose proof (to_uint_not_nil (Z.to_N n)) as Hne.
  pose proof (numeral_chars (N.to_uint (Z.to_N n))) as Hch.
  destruct (N.to_uint (Z.to_N n)); [congruence|..]; simpl in *;
    eexists _, _; (split; [reflexivity|]); now inversion Hch.
Qed.

(** A digit is no white space and no sign. *)
Lemma digit_char_plain (c : ascii) :
  digit_char c = true ->
  Js.isSpace c = false /\ c <> "-"%char /\ c <> "+"%char /\
  c <> "009"%char /\ c <> "010"%char.
Proof.
  destruct c as [[] [] [] [] [] [] [] []]; cbv; intros H;
    try discriminate; repeat split; discriminate.
Qed.

Lemma parseInt_unsigned (c : ascii) (t : string) :
  Js.isSpace c = false -> c <> "-"%char -> c <> "+"%char ->
  Js.parseInt (String c t) = Js.digits (String c t) None.
Proof.
  intros Hs Hm Hp. unfold Js.parseInt. cbn [Js.trimStart]. rewrite Hs.
  destruct c as [[] [] [] [] [] [] [] []]; try reflexivity; congruence.
Qed.

(** [parseInt] reads back what the template literal printed. *)
Lemma parseInt_decimal (n : Z) : 0 <= n -> Js.parseInt (decimal n) = Some n.
Proof.
  intros Hn. destruct (decimal_starts n) as [c [t [Heq Hc]]].
  destruct (digit_char_plain c Hc) as [Hs [Hm [Hp _]]].
  rewrite Heq, (parseInt_unsigned c t Hs Hm Hp), <- Heq.
  unfold decimal. rewrite digits_from_none by apply to_uint_not_nil.
  change (Pos.of_uint ?d) with (N.of_uint d).
  rewrite DecimalN.Unsigned.of_to. f_equal. lia.
Qed.

(** ** What the fuzzy finder echoes is read back *)

Lemma decimal_no_char (n : Z) (c : ascii) :
  digit_char c = false -> Js.includes (decimal n) (String c "") = false.
Proof.
  intros Hc. destruct (Js.includes _ _) eqn:H; [|reflexivity].
  apply includes_char in H.
  pose proof (decimal_chars n) as Hall. rewrite Forall_forall in Hall.
  rewrite (Hall c H) in Hc. discriminate.
Qed.

Lemma decimal_trimEnd (n : Z) : Js.trimEnd (decimal n) = decimal n.
Proof.
  apply trimEnd_no_space. pose proof (decimal_chars n) as Hall.
  rewrite Forall_forall in *. intros c Hc.
  now destruct (digit_char_plain c (Hall c Hc)).
Qed.

Lemma trimEnd_starts (c : ascii) (t : string) :
  Js.isSpace c = false -> Js.trimEnd (String c t) = String c (Js.trimEnd t).
Proof. intros Hc. cbn [Js.trimEnd]. now rewrite Hc. Qed.

(** The number a line of the fuzzy finder's input or output resolves to. *)
Lemma first_token (d rest : string) :
  Js.includes d tab = false ->
  nth 0 (Js.split (d ++ tab ++ rest) tab) "" = d.
Proof.
  intros Hd. rewrite (split_first tab "" "009" d rest eq_refl); [reflexivity|].
  now rewrite append_nil_r_str.
Qed.

Lemma line_resolves (i : Z) (item : string) :
  0 <= i ->
  option_map (fun n => n - 1)
    (Js.parseInt (nth 0 (Js.split (decimal (i + 1) ++ tab ++ item) tab) ""))
  = Some i.
Proof.
  intros Hi. rewrite first_token by (now apply decimal_no_char).
  rewrite parseInt_decimal by lia. cbn. f_equal. lia.
Qed.

Lemma trimmed_line_resolves (i : Z) (item : string) :
  0 <= i ->
  option_map (fun n => n - 1)
    (Js.parseInt
       (nth 0 (Js.split (Js.trimEnd (decimal (i + 1) ++ tab ++ item)) tab) ""))
  = Some i.
Proof.
  intros Hi. rewrite trimEnd_app.
  destruct (Js.trimEnd (tab ++ item) =? "")%string eqn:He.
  - rewrite decimal_trimEnd, split_none by (now apply decimal_no_char).
    cbn [nth]. rewrite parseInt_decimal by lia. cbn. f_equal. lia.
  - unfold tab in *. cbn [String.append] in *.
    rewrite (trimEnd_cons_nonempty "009" item).
    + exact (line_resolves i (Js.trimEnd item) Hi).
    + cbn [Js.trimEnd] in He. destruct (Js.trimEnd item =? "")%string;
        [discriminate | reflexivity].
Qed.

Lemma line_no_break (i : Z) (item : string) :
  Js.includes item nl = false ->
  Js.includes (decimal (i + 1) ++ tab ++ item) nl = false.
Proof.
  intros Hitem. apply no_char_app; [now apply decimal_no_char|].
  apply no_char_app; [reflexivity | exact Hitem].
Qed.

Lemma trimEnd_no_break (s : string) :
  Js.includes s nl = false -> Js.includes (Js.trimEnd s) nl = false.
Proof.
  intros Hs. destruct (Js.includes (Js.trimEnd s) nl) eqn:H; [|reflexivity].
  apply includes_char in H. apply trimEnd_chars in H.
  apply includes_char in H. unfold nl in Hs. congruence.
Qed.

Section Echo.
Variable items : list string.
Hypothesis items_one_line : forall x, In x items -> Js.includes x nl = false.

Let line (i : Z) : string :=
  (decimal (i + 1) ++ tab ++ nth (Z.to_nat i) items "")%string.

Lemma item_no_break (i : Z) :
  0 <= i < len items -> Js.includes (nth (Z.to_nat i) items "") nl = false.
Proof.
  intros Hi. apply items_one_line. apply nth_In. unfold len in Hi. lia.
Qed.

Lemma line_starts (i : Z) :
  exists c t, line i = String c t /\ Js.isSpace c = false.
Proof.
  unfold line. destruct (decimal_starts (i + 1)) as [c [t [-> Hc]]].
  exists c, (t ++ tab ++ nth (Z.to_nat i) items "")%string.
  split; [reflexivity|]. now destruct (digit_char_plain c Hc).
Qed.

(** The pieces of the trimmed output resolve to the picks. *)
Lemma echo_resolves (p : Z) (picks : list Z) :
  (forall i, In i (p :: picks) -> 0 <= i < len items) ->
  (Js.trimEnd (lines_out (map line (p :: picks))) =? "")%string = false /\
  map (fun l => option_map (fun n => n - 1)
                  (Js.parseInt (nth 0 (Js.split l tab) "")))
    (Js.split (Js.trimEnd (lines_out (map line (p :: picks)))) nl)
  = map Some (p :: picks).
Proof.
  revert p. induction picks as [|q picks IH]; intros p Hrange.
  - assert (Hp : 0 <= p < len items) by (apply Hrange; now left).
    cbn [map lines_out]. rewrite trimEnd_app.
    change (Js.trimEnd (nl ++ "") =? "")%string with true. cbv iota.
    destruct (line_starts p) as [c [t [Hl Hc]]].
    split.
    + rewrite Hl, (trimEnd_starts c t Hc). reflexivity.
    + rewrite split_none.
      * cbn [map]. unfold line. now rewrite trimmed_line_resolves by lia.
      * apply trimEnd_no_break. unfold line. apply line_no_break.
        now apply item_no_break.
  - assert (Hp : 0 <= p < len items) by (apply Hrange; now left).
    destruct (IH q) as [Hne Hmap]; [intros i Hi; apply Hrange; now right|].
    cbn [map lines_out] in *.
    rewrite <- append_assoc_str, trimEnd_app, Hne, append_assoc_str.
    destruct (line_starts p) as [c [t [Hl Hc]]].
    split.
    + rewrite Hl. reflexivity.
    + rewrite (split_first nl "" "010" (line p) _ eq_refl).
      * cbn [map]. rewrite Hmap. f_equal. unfold line.
        now rewrite line_resolves by lia.
      * rewrite append_nil_r_str. unfold line. apply line_no_break.
        now apply item_no_break.
Qed.

Lemma echo_fzfClose (picks : list Z) :
  (forall i, In i picks -> 0 <= i < len items) ->
  @fzfClose ascii_prims items (lines_out (map line picks)) = picks.
Proof.
  intros Hrange. destruct picks as [|p picks]; [reflexivity|].
  destruct (echo_resolves p picks Hrange) as [Hne Hmap].
  unfold fzfClose. cbn [trim ascii_prims]. unfold Js.trim_ascii.
  assert (Hstart : Js.trimStart (lines_out (map line (p :: picks)))
                   = lines_out (map line (p :: picks))).
  { cbn [map lines_out]. destruct (line_starts p) as [c [t [-> Hc]]].
    cbn [String.append Js.trimStart]. now rewrite Hc. }
  rewrite Hstart, Hne, Hmap.
  apply filter_num_all. intros i Hi. specialize (Hrange i Hi).
  apply andb_true_intro. split; [apply Z.leb_le | apply Z.ltb_lt]; lia.
Qed.

End Echo.

(** When the fuzzy finder writes back, one per line, lines of the input
    it was given, the selector resolves exactly the indices of those
    items, in the order written (items hold no line break). *)
Theorem fzf_echo_round_trip (w : World) (items : list string)
    (prompt_ : string) (multi : bool) (picks : list Z) :
  (forall x, In x items -> Js.includes x nl = false) ->
  (forall i, In i picks -> 0 <= i < len items) ->
  has w "fzf" = true ->
  (forall args input,
     fzf w args input
     = lines_out (map (fun i => (decimal (i + 1) ++ tab
                                   ++ nth (Z.to_nat i) items "")%string) picks)) ->
  @selectWithFzf ascii_prims w items prompt_ multi = Some picks.
Proof.
  intros Hitems Hrange Hfzf Hecho. unfold selectWithFzf.
  rewrite Hfzf. cbn [negb].
  destruct (len items =? 0) eqn:Hlen.
  - apply Z.eqb_eq in Hlen. destruct picks as [|p picks]; [reflexivity|].
    specialize (Hrange p (or_introl eq_refl)). lia.
  - rewrite Hecho. f_equal. now apply echo_fzfClose.
Qed.

(** ** The hardened handler resolves the same indices *)

Lemma space_no_digit (c : ascii) : Js.isSpace c = true -> Js.digit c = None.
Proof. destruct c as [[] [] [] [] [] [] [] []]; cbv; congruence. Qed.

Lemma digits_trimEnd (t : string) (acc : option Z) :
  Js.digits (Js.trimEnd t) acc = Js.digits t acc.
Proof.
  revert acc. induction t as [|c t IH]; intros acc; [reflexivity|].
  cbn [Js.trimEnd]. destruct (Js.isSpace c && _) eqn:Hsp.
  - apply andb_prop in Hsp as [Hc _]. cbn [Js.digits].
    now rewrite (space_no_digit c Hc).
  - cbn [Js.digits]. destruct (Js.digit c); [apply IH | reflexivity].
Qed.

Lemma trimStart_shape (s : string) :
  Js.trimStart s = "" \/
  exists c t, Js.trimStart s = String c t /\ Js.isSpace c = false.
Proof.
  induction s as [|c s IH]; [now left|]. cbn [Js.trimStart].
  destruct (Js.isSpace c) eqn:Hc; [exact IH|]. right. now exists c, s.
Qed.

Lemma parseInt_cons (c : ascii) (t : string) :
  Js.isSpace c = false ->
  Js.parseInt (String c t) =
  if Ascii.eqb c "-" then option_map Z.opp (Js.digits t None)
  else if Ascii.eqb c "+" then Js.digits t None
  else Js.digits (String c t) None.
Proof.
  intros Hc. unfold Js.parseInt. cbn [Js.trimStart]. rewrite Hc.
  destruct c as [[] [] [] [] [] [] [] []]; reflexivity.
Qed.

Lemma parseInt_trimStart (s : string) :
  Js.parseInt (Js.trimStart s) = Js.parseInt s.
Proof.
  unfold Js.parseInt. f_equal.
  induction s as [|c s IH]; [reflexivity|]. cbn [Js.trimStart].
  destruct (Js.isSpace c) eqn:Hc; [exact IH|]. cbn [Js.trimStart]. now rewrite Hc.
Qed.

(** Trimming a token does not change the number read from it. *)
Lemma parseInt_trim (s : string) :
  Js.parseInt (Js.trim_ascii s) = Js.parseInt s.
Proof.
  unfold Js.trim_ascii. rewrite <- (parseInt_trimStart s).
  destruct (trimStart_shape s) as [-> | [c [t [-> Hc]]]]; [reflexivity|].
  rewrite (trimEnd_starts c t Hc), !parseInt_cons by exact Hc.
  cbn [Js.digits]. rewrite !digits_trimEnd.
  destruct (Js.digit c); now rewrite ?digits_trimEnd.
Qed.

Lemma nth_firstn_1 (l : list string) : nth 0 (firstn 1 l) "" = nth 0 l "".
Proof. destruct l; reflexivity. Qed.

Lemma filter_num_same (p : Z -> bool) (g g' : string -> option Z)
    (l : list string) :
  p (-1) = false ->
  (forall x, g x = g' x \/ (g x = Some (-1) /\ g' x = None)) ->
  filter_num p (map g l) = filter_num p (map g' l).
Proof.
  intros Hp Hg. induction l as [|x l IH]; [reflexivity|]. cbn [map].
  destruct (Hg x) as [-> | [-> ->]]; cbn [filter_num].
  - destruct (g' x); now rewrite IH.
  - now rewrite Hp, IH.
Qed.

(** For one and the same output of the subprocess, the handler of the
    later revision (token trimmed, a token that is no number mapped to -1)
    resolves the same indices as the handler of [src/index.js]. *)
Theorem hardened_handler_resolves_the_same (items : list string)
    (out : string) :
  @Hardened.fzfClose ascii_prims items out = @fzfClose ascii_prims items out.
Proof.
  unfold Hardened.fzfClose, fzfClose.
  destruct (trim out =? "")%string; [reflexivity|].
  apply filter_num_same.
  - destruct (len items); reflexivity.
  - intros line. unfold Hardened.firstToken. rewrite nth_firstn_1.
    cbn [trim ascii_prims]. rewrite parseInt_trim.
    destruct (Js.parseInt _); [now left | now right].
Qed.

(** ** The session of the later revision *)

Section HardenedSession.
Context {P : StringPrims}.

Lemma hardened_fzfClose_range (items : list string) (out : string) (i : Z) :
  In i (Hardened.fzfClose items out) -> 0 <= i < len items.
Proof.
  unfold Hardened.fzfClose. destruct (trim out =? "")%string; [intros []|].
  rewrite filter_num_In. intros [_ H]. lia.
Qed.

Lemma hardened_selectWithFzf_range (w : World) (items : list string)
    (pr : string) (multi : bool) (l : list Z) :
  Hardened.selectWithFzf w items pr multi = Some l ->
  forall i, In i l -> 0 <= i < len items.
Proof.
  unfold Hardened.selectWithFzf. destruct (negb _); [discriminate|].
  destruct (len items =? 0); intros H; inversion H; subst.
  - intros i [].
  - intros i. apply hardened_fzfClose_range.
Qed.

Ltac early_case H :=
  cbn in H; inversion H; subst; clear H;
  left; split;
  [ rewrite ?runs_app, ?runs_will_dispatch;
    repeat match goal with H' : runs _ = [] |- _ => rewrite H' end;
    try reflexivity
  | intros Hcontra; try discriminate Hcontra ].

(** The two ways a session of the later revision goes. *)
Lemma hardened_shape (w : World) (t : Hardened.Terminal) (res : unit + fin)
    (tr : list event) :
  Hardened.main w t [] = (res, tr) ->
  (runs tr = [] /\ res <> inl tt) \/
  (res = inl tt /\
   (toLowerCase (trim (Hardened.answer t)) = "y" \/
    toLowerCase (trim (Hardened.answer t)) = "yes") /\
   exists data ws ref,
     JSON_parse w (raw_list w) = Some data /\
     ws <> [] /\ incl ws (workflowsOf data) /\
     (has w "fzf" = true \/
      (forall a, autoComplete w = Answer a -> In a (refsOf w)) ->
      exists x, ref = Some x /\ In x (refsOf w)) /\
     runs tr = map (fun c => (Js.at_index (Js.split c SEP) 1, ref)) ws).
Proof.
  unfold Hardened.main. fold (raw_list w). intros H.
  destruct (has w "git"); cbn [negb] in H; [|early_case H].
  destruct (has w "gh"); cbn [negb] in H; [|early_case H].
  destruct (len (refsOf w) =? 0); [early_case H|].
  unfold bind at 1 in H.
  set (pick := match Hardened.selectWithFzf w (refsOf w) "Select branch/tag" false with
               | Some refIdxs => _
               | None => _ end) in H.
  assert (Hpick : exists pre,
            runs pre = [] /\
            ((exists a, pick [] = (inl a, pre) /\
                (has w "fzf" = true \/
                 (forall v, autoComplete w = Answer v -> In v (refsOf w)) ->
                 exists i x, a = Some i /\ Js.at_index (refsOf w) i = Some x)) \/
             (exists f, pick [] = (inr f, pre)))).
  { unfold pick.
    destruct (Hardened.selectWithFzf _ _ _ _) as [refIdxs|] eqn:Hfzf.
    - destruct (len refIdxs =? 0) eqn:Hlen.
      + exists [ConsoleLog "No selection."]. split; [reflexivity|].
        right. eexists. reflexivity.
      + exists []. split; [reflexivity|]. left. eexists.
        split; [reflexivity|]. intros _.
        destruct refIdxs as [|i rest]; [discriminate Hlen|].
        exists i. cbn.
        destruct (at_index_defined (refsOf w) i) as [x Hx].
        * apply (hardened_selectWithFzf_range w _ _ _ _ Hfzf). now left.
        * now exists x.
    - exists [AutoCompletePrompt "Select branch or tag" (refsOf w)].
      split; [reflexivity|].
      unfold selectWithEnquirerSingle, bind, emit, ret, stop. cbn.
      destruct (autoComplete w) as [v|] eqn:Hauto.
      + left. eexists. split; [reflexivity|].
        intros [Hf | Hin].
        * unfold Hardened.selectWithFzf in Hfzf. rewrite Hf in Hfzf.
          cbn [negb] in Hfzf. destruct (len _ =? 0); discriminate.
        * eexists _, v. split; [reflexivity|].
          apply indexOf_at. now apply Hin.
      + right. eexists. reflexivity. }
  clearbody pick. destruct Hpick as [pre [Hpre [[a [Ha Hdef]] | [f Ha]]]];
    rewrite Ha in H; [|early_case H].
  set (ref := match a with Some i => Js.at_index (refsOf w) i | None => None end)
    in H.
  assert (Href : has w "fzf" = true \/
                 (forall v, autoComplete w = Answer v -> In v (refsOf w)) ->
                 exists x, ref = Some x /\ In x (refsOf w)).
  { intros Hc. destruct (Hdef Hc) as [i [x [-> Hx]]]. unfold ref.
    exists x. split; [exact Hx | eapply at_index_In; eauto]. }
  clearbody ref. clear Hdef. unfold bind at 1 in H. unfold emit at 1 in H.
  destruct (JSON_parse w _) as [data|] eqn:Hparse; [|early_case H].
  destruct (len (workflowsOf data) =? 0); [early_case H|].
  unfold bind at 1 in H.
  set (tr0 := pre ++ [LogSelectedRef ref]) in H.
  assert (Htr0 : runs tr0 = []) by (unfold tr0; now rewrite runs_app, Hpre).
  clearbody tr0.
  set (pick2 := match Hardened.selectWithFzf w (workflowsOf data) "Select workflows" true with
                | Some l => ret l
                | None => _ end) in H.
  assert (Hpick2 : exists out,
            runs out = [] /\
            ((exists l, pick2 tr0 = (inl l, tr0 ++ out) /\
                        forall i, In i l -> 0 <= i < len (workflowsOf data)) \/
             pick2 tr0 = (inr Waiting, tr0 ++ out))).
  { unfold pick2.
    destruct (Hardened.selectWithFzf _ _ _ _) as [l|] eqn:Hfzf.
    - exists []. split; [reflexivity|]. left. exists l. unfold ret.
      rewrite app_nil_r. split; [reflexivity|].
      now apply (hardened_selectWithFzf_range w _ _ _ l Hfzf).
    - pose proof (loop_quiet (workflowsOf data) "Select workflows to dispatch"
                    (rounds w) JSSet.empty) as Hq.
      pose proof (fun idxs => loop_resolved "Select workflows to dispatch"
                    (workflowsOf data) (rounds w) JSSet.empty idxs) as Hres.
      unfold selectWithEnquirerMulti.
      destruct (loop _ _ _ _) as [st out]. cbn [fst snd] in *.
      exists out. split; [exact Hq|].
      unfold bind. rewrite emit_all_run.
      destruct st as [s|idxs]; [now right|].
      left. exists idxs. split; [reflexivity|].
      apply (Hres idxs eq_refl). constructor. }
  clearbody pick2.
  destruct Hpick2 as [out [Hout [[l [Hl Hrange]] | Hl]]]; rewrite Hl in H;
    [|early_case H].
  destruct (len l =? 0) eqn:Hlen; [early_case H|].
  destruct (chosen_within (workflowsOf data) l Hrange) as [ws [Hws [Hincl Hlenws]]].
  rewrite Hws in H.
  unfold bind at 1 in H. unfold emit at 1 in H.
  unfold bind at 1 in H. rewrite emit_all_run in H.
  unfold bind at 1 in H. unfold Hardened.confirm, bind, emit, ret in H.
  set (tr1 := (((tr0 ++ out) ++ _) ++ _) ++ _) in H.
  assert (Htr1 : runs tr1 = []).
  { unfold tr1. now rewrite !runs_app, runs_will_dispatch, Htr0, Hout. }
  clearbody tr1.
  destruct (_ || _) eqn:Hyes; cbn [negb] in H; [|early_case H].
  destruct (dispatch_trace w ref ws tr1) as [tr' [Hd [Hruns _]]].
  rewrite Hd in H. inversion H; subst. clear H.
  right. split; [reflexivity|]. split.
  - apply orb_prop in Hyes as [Hy|Hy]; apply String.eqb_eq in Hy; auto.
  - exists data, ws, ref. repeat split; auto.
    + intros ->. destruct l; [discriminate Hlen | discriminate Hlenws].
    + now rewrite !runs_app, Htr1, Hruns, app_nil_r.
Qed.

(** In the later revision a workflow is never run on an undefined ref:
    when the fuzzy finder is there (or the autocomplete prompt answers one
    of its choices), every run carries a ref that git listed.  In
    particular, a ref picker that resolves nothing ends the session. *)
Theorem hardened_runs_on_listed_ref (w : World) (t : Hardened.Terminal) :
  has w "fzf" = true \/
  (forall a, autoComplete w = Answer a -> In a (refsOf w)) ->
  forall p r, In (p, r) (runs (snd (Hardened.main w t []))) ->
    exists x, r = Some x /\ In x (refsOf w).
Proof.
  intros Hc p r. destruct (Hardened.main w t []) as [res tr] eqn:Hs. cbn [snd].
  destruct (hardened_shape w t _ _ Hs)
    as [[Hq _] | [_ [_ [data [ws [ref [_ [_ [_ [Href Hruns]]]]]]]]]].
  - rewrite Hq. intros [].
  - rewrite Hruns. intros Hin. apply in_map_iff in Hin as [c [Heq _]].
    inversion Heq; subst. now apply Href.
Qed.

(** In the later revision nothing is dispatched unless the line typed at
    the readline question, trimmed and in lower case, is "y" or "yes". *)
Theorem hardened_dispatch_needs_yes (w : World) (t : Hardened.Terminal) :
  runs (snd (Hardened.main w t [])) <> [] ->
  toLowerCase (trim (Hardened.answer t)) = "y" \/
  toLowerCase (trim (Hardened.answer t)) = "yes".
Proof.
  intros Hruns. destruct (Hardened.main w t []) as [res tr] eqn:Hs.
  cbn [snd] in Hruns.
  destruct (hardened_shape w t _ _ Hs) as [[Hq _] | [_ [Hyes _]]].
  - contradiction.
  - exact Hyes.
Qed.

(** The guard of the later revision: when the fuzzy-finder ref picker
    resolves nothing, the session ends there with "No selection.", before
    any ref is logged, any workflow listed or any prompt shown. *)
Theorem hardened_empty_ref_pick_ends_session (w : World)
    (t : Hardened.Terminal) :
  has w "git" = true -> has w "gh" = true ->
  refsOf w <> [] ->
  Hardened.selectWithFzf w (refsOf w) "Select branch/tag" false = Some [] ->
  Hardened.main w t [] = (inr Returned, [ConsoleLog "No selection."]).
Proof.
  intros Hgit Hgh Hrefs Hsel. unfold Hardened.main.
  rewrite Hgit, Hgh, Hsel. cbn [negb].
  destruct (len (refsOf w) =? 0) eqn:Hlen; [|reflexivity].
  apply Z.eqb_eq in Hlen. unfold len in Hlen.
  destruct (refsOf w); [congruence | simpl in Hlen; lia].
Qed.

End HardenedSession.

(** ** The revision with a select-all line *)

Lemma indices_from_range {A : Type} (l : list A) (k i : Z) :
  In i (mapi_from (fun _ i => i) l k) -> k <= i < k + len l.
Proof.
  unfold len. revert k. induction l as [|x l IH]; intros k; cbn [mapi_from].
  - intros [].
  - cbn [List.length]. rewrite Nat2Z.inj_succ.
    intros [<-|Hi]; [lia|]. specialize (IH (k + 1) Hi). lia.
Qed.

Lemma indices_range {A : Type} (l : list A) (i : Z) :
  In i (indices l) -> 0 <= i < len l.
Proof. intros H. apply (indices_from_range l 0 i) in H. lia. Qed.

Section SelectAllFacts.
Context {P : StringPrims}.

(** In the revision with the select-all line the fuzzy-finder selector
    resolves only indices of the item list; and in multi mode, when a line
    numbered 0 is among the lines written, it resolves every index, in
    order, whatever the other lines are. *)
Theorem select_all_line_selects_everything (w : World) (items : list string)
    (prompt_ : string) (multi : bool) (idxs : list Z) :
  SelectAll.selectWithFzf w items prompt_ multi = Some idxs ->
  (forall i, In i idxs -> 0 <= i < len items) /\
  (forall out line,
     (trim out =? "")%string = false ->
     In line (Js.split (trim out) nl) ->
     Js.parseInt (nth 0 (Js.split line tab) "") = Some 0 ->
     SelectAll.fzfClose items true out = indices items).
Proof.
  intros Hsel. split.
  - unfold SelectAll.selectWithFzf in Hsel.
    destruct (negb _); [discriminate|].
    destruct (len items =? 0); inversion Hsel; subst; [intros i []|].
    intros i. unfold SelectAll.fzfClose.
    destruct (trim _ =? "")%string; [intros []|].
    destruct (multi && _).
    + apply indices_range.
    + destruct multi; rewrite filter_num_In; intros [_ H]; lia.
  - intros out line Hne Hin Hzero. unfold SelectAll.fzfClose. rewrite Hne.
    cbn [andb].
    assert (Hex : existsb
              (fun i : option Z => match i with Some n => n =? 0 | None => false end)
              (map (fun line => Js.parseInt (nth 0 (Js.split line tab) ""))
                 (Js.split (trim out) nl)) = true).
    { apply existsb_exists. exists (Some 0). split; [|reflexivity].
      apply in_map_iff. now exists line. }
    now rewrite Hex.
Qed.

(** The one-prompt multi-select of that revision returns only indices
    of the item list, whatever the prompt resolves; the toggle alone
    returns every index in order, and the toggle next to other picks
    counts for nothing. *)
Theorem one_prompt_multi_select (items : list string) (ans : list string) :
  (forall i, In i (SelectAll.selectWithEnquirerMulti items ans) ->
             0 <= i < len items) /\
  (Js.arr_includes ans SelectAll.TOGGLE_ALL = true ->
   (forall v, In v ans -> v = SelectAll.TOGGLE_ALL) ->
   SelectAll.selectWithEnquirerMulti items ans = indices items) /\
  (forall v, In v ans -> v <> SelectAll.TOGGLE_ALL ->
   SelectAll.selectWithEnquirerMulti items ans
   = SelectAll.selectWithEnquirerMulti items
       (filter (fun v => negb (v =? SelectAll.TOGGLE_ALL)%string) ans)).
Proof.
  set (rest := filter (fun v => negb (v =? SelectAll.TOGGLE_ALL)%string) ans).
  assert (Hrest_no : Js.arr_includes rest SelectAll.TOGGLE_ALL = false).
  { destruct (Js.arr_includes rest _) eqn:H; [|reflexivity].
    apply existsb_eqb_In in H. apply filter_In in H as [_ H].
    now rewrite String.eqb_refl in H. }
  split; [|split].
  - intros i. unfold SelectAll.selectWithEnquirerMulti.
    destruct (Js.arr_includes ans _).
    + destruct (len _ =? 0); [apply indices_range | apply done_result_range].
    + apply done_result_range.
  - intros Hinc Honly. unfold SelectAll.selectWithEnquirerMulti. rewrite Hinc.
    fold rest. assert (rest = []) as ->; [|reflexivity].
    destruct rest as [|v l] eqn:Hr; [reflexivity|].
    assert (Hv : In v rest) by (rewrite Hr; now left).
    apply filter_In in Hv as [Hv Hne]. rewrite (Honly v Hv) in Hne.
    now rewrite String.eqb_refl in Hne.
  - intros v Hv Hne. unfold SelectAll.selectWithEnquirerMulti at 2.
    rewrite Hrest_no. unfold SelectAll.selectWithEnquirerMulti.
    destruct (Js.arr_includes ans SelectAll.TOGGLE_ALL) eqn:Hinc.
    + fold rest. destruct (len rest =? 0) eqn:Hlen; [|reflexivity].
      assert (Hin : In v rest).
      { apply filter_In. split; [exact Hv|].
        destruct (String.eqb_spec v SelectAll.TOGGLE_ALL); [congruence | reflexivity]. }
      destruct rest; [destruct Hin | discriminate Hlen].
    + f_equal. f_equal. symmetry. apply forallb_filter_id. apply forallb_forall.
      intros x Hx. destruct (String.eqb_spec x SelectAll.TOGGLE_ALL) as [->|_];
        [|reflexivity].
      apply existsb_eqb_In in Hx. unfold Js.arr_includes in Hinc. congruence.
Qed.

End SelectAllFacts.

(** ** Further worked inputs *)

Lemma multi_result_valid_distinct_witness :
  NoDup [0; 1] /\ forall i, In i [0; 1] -> 0 <= i < len abc.
Proof.
  apply (multi_result_valid_distinct "Select" abc
           [alpha_round; beta_round; done_round] [0; 1]); reflexivity.
Defined.

Lemma reset_then_done_returns_nothing_witness :
  fst (loop abc "Select" [] ([alpha_round] ++ [reset_round])) = Looping [] /\
  fst (loop abc "Select" []
         ([alpha_round] ++ [reset_round] ++ [] ++ [done_round])) = Resolved [].
Proof.
  apply (reset_then_done_returns_nothing "Select" abc [alpha_round] []
           [] ["alpha"] reset_round done_round ":done");
    try reflexivity.
  intros m [].
Defined.

Lemma resubmit_prechecked_is_noop_witness :
  exists s',
    fst (iteration abc "Select" ["alpha"] same_round) = Looping s' /\
    forall v, JSSet.has s' v = JSSet.has ["alpha"] v.
Proof.
  apply (resubmit_prechecked_is_noop "Select" abc ["alpha"] same_round
           (visibleOf abc "a") ["alpha"]); reflexivity.
Defined.

Lemma explicit_picks_idempotent_witness :
  JSSet.has (update (visibleOf abc "a")
               (update (visibleOf abc "a") ["alpha"] ["beta"]) ["beta"]) "beta"
  = JSSet.has (update (visibleOf abc "a") ["alpha"] ["beta"]) "beta".
Proof.
  apply (explicit_picks_idempotent (visibleOf abc "a") ["alpha"] ["beta"] "beta").
  reflexivity.
Defined.

Lemma refined_filter_narrows_witness :
  In (mk_entry "alpha" 0) (visibleOf abc "a").
Proof.
  apply (refined_filter_narrows abc "a" "al" (mk_entry "alpha" 0)).
  - reflexivity.
  - vm_compute. left. reflexivity.
Defined.

Lemma toggle_all_then_done_selects_everything_witness :
  fst (selectWithEnquirerMulti abc "Select" [toggle_all_round; done_round])
  = Resolved (indices abc).
Proof.
  apply (toggle_all_then_done_selects_everything "Select" abc toggle_all_round
           done_round "" ":done" [TOGGLE]); try reflexivity.
  repeat constructor; simpl; intuition discriminate.
Defined.

Lemma dispatch_needs_confirmation_witness :
  confirmed (world_enquirer [deploy; test] (fun _ => None)) = Answer true /\
  (exists data,
     JSON_parse (world_enquirer [deploy; test] (fun _ => None))
       (raw_list (world_enquirer [deploy; test] (fun _ => None))) = Some data) /\
  fst (session (world_enquirer [deploy; test] (fun _ => None))) = inl tt.
Proof.
  apply (dispatch_needs_confirmation (world_enquirer [deploy; test] (fun _ => None))).
  vm_compute. discriminate.
Defined.

Lemma path_recovered_from_label_witness :
  (forall x, In x [deploy; test] ->
     Js.at_index (Js.split (name x ++ SEP ++ path x) SEP) 1 = Some (path x)) /\
  runs (snd (dispatch world_single_abort (Some "main")
               (map (fun x => Some (name x ++ SEP ++ path x)%string)
                  [deploy; test]) []))
  = runs [] ++ map (fun x => (Some (path x), Some "main")) [deploy; test].
Proof.
  apply (path_recovered_from_label world_single_abort (Some "main")
           [deploy; test] []).
  intros x [<-|[<-|[]]]; split; reflexivity.
Defined.

Lemma refs_read_back_witness :
  refsOf world_single_abort = ["main"; "v1.0"].
Proof.
  apply (refs_read_back world_single_abort ["main"; "v1.0"]).
  - reflexivity.
  - intros r [<-|[<-|[]]]; repeat split; discriminate.
  - reflexivity.
Defined.

Lemma fzf_echo_round_trip_witness :
  selectWithFzf world_fzf_echo ["main"; "v1.0"] "Select branch/tag" false
  = Some [1; 0].
Proof.
  apply (fzf_echo_round_trip world_fzf_echo ["main"; "v1.0"]
           "Select branch/tag" false [1; 0]).
  - intros x [<-|[<-|[]]]; reflexivity.
  - intros i [<-|[<-|[]]]; vm_compute; split; congruence.
  - reflexivity.
  - intros args input. reflexivity.
Defined.

Lemma hardened_runs_on_listed_ref_witness :
  exists x, Some "main" = Some x /\ In x (refsOf world_fzf_first).
Proof.
  apply (hardened_runs_on_listed_ref world_fzf_first typed_yes
           (or_introl eq_refl) (Some ".github/workflows/deploy.yml")
           (Some "main")).
  vm_compute. left. reflexivity.
Defined.

Lemma hardened_dispatch_needs_yes_witness :
  toLowerCase (trim (Hardened.answer typed_yes)) = "y" \/
  toLowerCase (trim (Hardened.answer typed_yes)) = "yes".
Proof.
  apply (hardened_dispatch_needs_yes world_fzf_first typed_yes).
  vm_compute. discriminate.
Defined.

Lemma select_all_line_selects_everything_witness :
  (forall i, In i [0; 1] -> 0 <= i < len ["main"; "v1.0"]) /\
  (forall out line,
     (trim out =? "")%string = false ->
     In line (Js.split (trim out) nl) ->
     Js.parseInt (nth 0 (Js.split line tab) "") = Some 0 ->
     SelectAll.fzfClose ["main"; "v1.0"] true out = indices ["main"; "v1.0"]).
Proof.
  apply (select_all_line_selects_everything world_fzf_all ["main"; "v1.0"]
           "Select workflows" true [0; 1]).
  reflexivity.
Defined.

(** ** The readline confirmation, for answers of the ASCII range *)

Lemma trimStart_decompose (s : string) :
  exists pre,
    s = (pre ++ Js.trimStart s)%string /\
    Forall (fun c => Js.isSpace c = true) (list_ascii_of_string pre).
Proof.
  induction s as [|c s [pre [Hs Hpre]]]; [now exists ""|].
  cbn [Js.trimStart]. destruct (Js.isSpace c) eqn:Hc.
  - exists (String c pre). split; [cbn; now rewrite <- Hs|].
    simpl. now constructor.
  - now exists "".
Qed.

Lemma trimEnd_decompose (s : string) :
  exists post,
    s = (Js.trimEnd s ++ post)%string /\
    Forall (fun c => Js.isSpace c = true) (list_ascii_of_string post).
Proof.
  induction s as [|c s [post [Hs Hpost]]]; [now exists ""|].
  cbn [Js.trimEnd]. destruct (Js.isSpace c && _) eqn:Hc.
  - apply andb_prop in Hc as [Hc He]. apply String.eqb_eq in He.
    rewrite He in Hs. cbn in Hs. exists (String c post).
    split; [now rewrite <- Hs|]. simpl. now constructor.
  - exists post. split; [cbn; now rewrite <- Hs | exact Hpost].
Qed.

Lemma trimStart_blank (pre s : string) :
  Forall (fun c => Js.isSpace c = true) (list_ascii_of_string pre) ->
  Js.trimStart (pre ++ s) = Js.trimStart s.
Proof.
  induction pre as [|c pre IH]; [reflexivity|]. simpl. intros H.
  inversion H as [|? ? Hc Hp]; subst. now rewrite Hc, (IH Hp).
Qed.

Lemma trimEnd_blank (post : string) :
  Forall (fun c => Js.isSpace c = true) (list_ascii_of_string post) ->
  Js.trimEnd post = "".
Proof.
  induction post as [|c post IH]; [reflexivity|]. simpl. intros H.
  inversion H as [|? ? Hc Hp]; subst. now rewrite Hc, (IH Hp).
Qed.

Lemma lower_is_y (c : ascii) :
  Js.lower_char c = "y"%char -> c = "y"%char \/ c = "Y"%char.
Proof. destruct c as [[] [] [] [] [] [] [] []]; cbv; intros H; auto; discriminate. Qed.

Lemma lower_is_e (c : ascii) :
  Js.lower_char c = "e"%char -> c = "e"%char \/ c = "E"%char.
Proof. destruct c as [[] [] [] [] [] [] [] []]; cbv; intros H; auto; discriminate. Qed.

Lemma lower_is_s (c : ascii) :
  Js.lower_char c = "s"%char -> c = "s"%char \/ c = "S"%char.
Proof. destruct c as [[] [] [] [] [] [] [] []]; cbv; intros H; auto; discriminate. Qed.

Lemma ascii_only_app (a b : string) :
  ascii_only (a ++ b) = ascii_only a && ascii_only b.
Proof.
  unfold ascii_only.
  induction a as [|c a IH]; cbn [String.append list_ascii_of_string forallb];
    [reflexivity|].
  now rewrite IH, andb_assoc.
Qed.

Lemma ascii_only_trim (s : string) :
  ascii_only s = true -> ascii_only (Js.trim_ascii s) = true.
Proof.
  intros H. unfold Js.trim_ascii.
  destruct (trimStart_decompose s) as [pre [Hs _]].
  destruct (trimEnd_decompose (Js.trimStart s)) as [post [He _]].
  rewrite Hs, ascii_only_app in H. apply andb_prop in H as [_ H].
  rewrite He, ascii_only_app in H. now apply andb_prop in H as [H _].
Qed.

(** For every [trim] and [toLowerCase] that are, on text of the ASCII
    range, the removal of ASCII white space and the lower-casing of A to Z
    (as the built-in ones are), and for every answer of the ASCII range:
    the readline confirmation answers yes exactly for the lines that,
    white space around them apart, spell "y" or "yes" in any letter case;
    every other such line, the empty one included, is a no. *)
Theorem readline_confirm_accepts (P : StringPrims) (t : Hardened.Terminal)
    (message : string) (tr : list event) :
  (forall s, ascii_only s = true -> trim s = Js.trim_ascii s) ->
  (forall s, ascii_only s = true -> toLowerCase s = Js.lower_ascii s) ->
  ascii_only (Hardened.answer t) = true ->
  (fst (Hardened.confirm t message tr) = inl true <->
   exists pre core post,
     Hardened.answer t = (pre ++ core ++ post)%string /\
     Forall (fun c => Js.isSpace c = true) (list_ascii_of_string pre) /\
     Forall (fun c => Js.isSpace c = true) (list_ascii_of_string post) /\
     In core ["y"; "Y"; "yes"; "yeS"; "yEs"; "yES"; "Yes"; "YeS"; "YEs"; "YES"]).
Proof.
  intros Htrim Hlower Hascii.
  unfold Hardened.confirm, bind, emit, ret. cbn [fst].
  rewrite (Htrim _ Hascii), (Hlower _ (ascii_only_trim _ Hascii)).
  clear Htrim Hlower Hascii.
  split.
  - intros H. injection H as Hyes.
    destruct (trimStart_decompose (Hardened.answer t)) as [pre [Hs Hpre]].
    destruct (trimEnd_decompose (Js.trimStart (Hardened.answer t)))
      as [post [He Hpost]].
    exists pre, (Js.trim_ascii (Hardened.answer t)), post.
    split; [unfold Js.trim_ascii; now rewrite <- He, <- Hs|].
    split; [exact Hpre|]. split; [exact Hpost|].
    destruct (Js.trim_ascii (Hardened.answer t)) as [|c1 [|c2 [|c3 [|c4 u]]]];
      cbn [Js.lower_ascii] in Hyes.
    + discriminate.
    + apply orb_prop in Hyes as [Hy|Hy]; apply String.eqb_eq in Hy;
        inversion Hy as [Hc1].
      destruct (lower_is_y c1 Hc1) as [-> | ->]; simpl; auto.
    + apply orb_prop in Hyes as [Hy|Hy]; apply String.eqb_eq in Hy;
        inversion Hy.
    + apply orb_prop in Hyes as [Hy|Hy]; apply String.eqb_eq in Hy;
        inversion Hy as [[Hc1 Hc2 Hc3]].
      destruct (lower_is_y c1 Hc1) as [-> | ->];
        destruct (lower_is_e c2 Hc2) as [-> | ->];
        destruct (lower_is_s c3 Hc3) as [-> | ->]; simpl; tauto.
    + apply orb_prop in Hyes as [Hy|Hy]; apply String.eqb_eq in Hy;
        inversion Hy.
  - intros [pre [core [post [Ha [Hpre [Hpost Hcore]]]]]].
    rewrite Ha. unfold Js.trim_ascii. rewrite (trimStart_blank pre _ Hpre).
    assert (Hstart : Js.trimStart (core ++ post) = (core ++ post)%string /\
                     Js.trimEnd core = core /\
                     ((Js.lower_ascii core =? "y")%string
                      || (Js.lower_ascii core =? "yes")%string) = true).
    { simpl in Hcore.
      repeat (destruct Hcore as [<- | Hcore]; [repeat split; reflexivity|]).
      destruct Hcore. }
    destruct Hstart as [-> [Hend Hlow]].
    rewrite trimEnd_app, (trimEnd_blank post Hpost). cbn [String.eqb].
    now rewrite Hend, Hlow.
Qed.

(** The answer " Yes " is of the ASCII range and is accepted. *)
Lemma readline_confirm_accepts_witness :
  fst (@Hardened.confirm ascii_prims typed_yes "Proceed?" []) = inl true <->
  exists pre core post,
    Hardened.answer typed_yes = (pre ++ core ++ post)%string /\
    Forall (fun c => Js.isSpace c = true) (list_ascii_of_string pre) /\
    Forall (fun c => Js.isSpace c = true) (list_ascii_of_string post) /\
    In core ["y"; "Y"; "yes"; "yeS"; "yEs"; "yES"; "Yes"; "YeS"; "YEs"; "YES"].
Proof.
  apply (readline_confirm_accepts ascii_prims typed_yes "Proceed?" []).
  - intros s _. reflexivity.
  - intros s _. reflexivity.
  - reflexivity.
Defined.
